(** * shotcheck: screenshot comparison by file-name prefix

    A shallow embedding of [shotcheck.py]: prefix extraction, the collector,
    the matcher, the differencer and the driver with its report, followed by
    the properties of each.

    Python strings are modelled by [string]: sequences of code points below
    256, a range in which the class [\d] of the [re] module is exactly the
    ten characters ['0'] to ['9']. *)

From Stdlib Require Import ZArith Lia Bool Ascii String.
From stdpp Require Import base option list sorting strings pretty gmap.

Local Open Scope string_scope.

(** ** Prefix extraction *)

Module Prefix.

(** The regular expressions needed by [extract_prefix]: a sequence of
    one-character atoms, anchored at the right by [$]. *)
Inductive atom : Type :=
  | Lit (c : ascii)   (* a literal character *)
  | Digit.            (* \d *)

Definition is_digit (c : ascii) : bool :=
  (48 <=? nat_of_ascii c)%nat && (nat_of_ascii c <=? 57)%nat.

Definition atom_matches (a : atom) (c : ascii) : bool :=
  match a with
  | Lit x => Ascii.eqb x c
  | Digit => is_digit c
  end.

(** Consume one character per atom; the result is what follows the match. *)
Fixpoint match_atoms (p : list atom) (s : string) : option string :=
  match p with
  | [] => Some s
  | a :: p' =>
      match s with
      | EmptyString => None
      | String c s' => if atom_matches a c then match_atoms p' s' else None
      end
  end.

Definition newline : ascii := "010"%char.

(** The string of one newline. *)
Definition nl : string := String newline "".

(** [$] without [re.MULTILINE]: at the end of the string, or just before a
    newline that is the last character of the string. *)
Definition at_dollar (rest : string) : bool :=
  match rest with
  | EmptyString => true
  | String c EmptyString => Ascii.eqb c newline
  | _ => false
  end.

Definition matches_here (p : list atom) (s : string) : bool :=
  match match_atoms p s with
  | Some rest => at_dollar rest
  | None => false
  end.

(** [re.sub(p + '$', repl, s)] for a pattern of at least one atom and a
    replacement without group references: left to right, every match that
    does not overlap an earlier one is replaced.  A match spans [length p]
    characters; [skip] counts those of the current match still to drop. *)
Fixpoint sub_scan (p : list atom) (repl : string) (skip : nat) (s : string)
  : string :=
  match s with
  | EmptyString => EmptyString
  | String c s' =>
      match skip with
      | S k => sub_scan p repl k s'
      | O =>
          if matches_here p s
          then repl +:+ sub_scan p repl (pred (length p)) s'
          else String c (sub_scan p repl 0 s')
      end
  end.

Definition re_sub (p : list atom) (repl s : string) : string :=
  sub_scan p repl 0 s.

Definition lits (s : string) : list atom := Lit <$> list_ascii_of_string s.

(** [r'_\d{8}_\d{6}\.png$'] *)
Definition pattern : list atom :=
  lits "_" ++ replicate 8 Digit ++ lits "_" ++ replicate 6 Digit ++ lits ".png".

Definition extract_prefix (filename : string) : string :=
  re_sub pattern "" filename.

(** The suffix shape in the words of the specification, not of the matcher:
    an underscore, 8 digits, an underscore, 6 digits, [.png]. *)
Definition digits (s : string) : Prop :=
  Forall (fun c => is_digit c = true) (list_ascii_of_string s).

Definition timestamp_suffix (t : string) : Prop :=
  exists d8 d6 : string,
    String.length d8 = 8 /\ digits d8 /\
    String.length d6 = 6 /\ digits d6 /\
    t = "_" +:+ d8 +:+ "_" +:+ d6 +:+ ".png".


(** A string matched by a pattern atom by atom, whole, as a proposition. *)
Fixpoint shape (p : list atom) (m : string) : Prop :=
  match p, m with
  | [], EmptyString => True
  | a :: p', String c m' => atom_matches a c = true /\ shape p' m'
  | _, _ => False
  end.

(** The last character of a string, if it has one. *)
Definition last_char (s : string) : option ascii :=
  List.last (Some <$> list_ascii_of_string s) None.

End Prefix.

Import Prefix.

(** ** Paths, files and the environment *)

Module Env.

(** A [pathlib.Path], by its components. *)
Definition Path : Type := list string.

(** [d / name], for a name that is one component. *)
Definition joinpath (d : Path) (name : string) : Path := (d ++ [name])%list.

(** [p.name]: the last component. *)
Definition name (p : Path) : string := List.last p "".

(** [str(p)] *)
Definition path_str (p : Path) : string :=
  match p with
  | [] => "."
  | [EmptyString] => "/"
  | _ => String.concat "/" p
  end.




(** An RGB pixel; channels range over 0..255. *)
Definition pixel : Type := (Z * Z * Z)%type.

(** A decoded image: [size] is PIL's [(width, height)], [pixels] what
    [np.array] gives, a list of [height] rows of [width] pixels. *)
Record image : Type := Image {
  size : nat * nat;
  pixels : list (list pixel)
}.

(** What a path of the file system holds. *)
Inductive file : Type :=
  | Directory
  | Png (img : image)
  | Text (content : string)
  | Garbage (bytes : string).

(** The file system: what each path holds. *)
Abbreviation FS := (gmap Path file).

(** An exception, by the text [str(e)] gives. *)
Definition exn : Type := string.

Inductive result (A : Type) : Type :=
  | Ok (a : A)
  | Raise (e : exn).
Arguments Ok {A} a.
Arguments Raise {A} e.

(** Sequencing: an exception raised by [m] skips what follows. *)
#[global] Instance result_bind : MBind result := fun A B k m =>
  match m with
  | Ok a => k a
  | Raise e => Raise e
  end.

Inductive font : Type :=
  | DejaVuSans20
  | DefaultFont.

(** The operating system and the libraries (pathlib, PIL, numpy) the
    program calls.  The calls made outside the [try] block of the
    comparison loop ([is_dir], [glob], [mkdir], [print], writing the report)
    are taken to return normally; those inside it may raise. *)
Record env : Type := Environment {
  (** [p.is_dir()] *)
  is_dir : FS -> Path -> bool;
  (** the names of the entries of a directory, in the order the operating
      system enumerates them *)
  scandir : FS -> Path -> list string;
  (** [Image.open(p).convert('RGB')] *)
  image_open : FS -> Path -> result image;
  (** [img.resize(size, Image.Resampling.LANCZOS)] *)
  resize : image -> nat * nat -> result image;
  (** one entry of [np.dot(a[..., :3], [0.299, 0.587, 0.114])] after
      [.astype(np.uint8)]: the float64 weighted sum of a pixel, truncated *)
  luma : pixel -> Z;
  (** [ImageFont.truetype('/usr/share/fonts/truetype/dejavu/DejaVuSans.ttf', 20)] *)
  truetype : result font;
  (** [draw.text(xy, text, fill='black', font=font)] on an image *)
  draw_text : image -> Z * Z -> string -> font -> result image;
  (** [img.save(p, 'PNG')]: the file system it leaves, and what it raised *)
  save : image -> Path -> FS -> FS * option exn
}.

End Env.

Import Env.

(** ** Collector *)

Module Collector.

(** A name against the glob pattern [*] followed by the literal [lit]: the
    star takes any number of characters, the literal the rest. *)
Fixpoint fnmatch_star (lit s : string) : bool :=
  String.eqb s lit ||
  match s with
  | EmptyString => false
  | String _ s' => fnmatch_star lit s'
  end.

(** [directory.glob('*.png')]: the entries of [directory] itself whose name
    matches, in enumeration order. *)
Definition glob_png (E : env) (fs : FS) (directory : Path) : list Path :=
  joinpath directory
    <$> List.filter (fnmatch_star ".png") (scandir E fs directory).

Definition index_file (images : gmap string Path) (file : Path)
  : gmap string Path :=
  let prefix := extract_prefix (name file) in
  <[prefix := file]> images.

Definition collect_images (E : env) (fs : FS) (directory : Path)
  : gmap string Path :=
  foldl index_file ∅ (glob_png E fs directory).

End Collector.

(** ** Matcher *)

Module Matcher.

(** [sorted(xs)] on strings: Python orders [str] values by code point,
    lexicographically, which is [String.le]. *)
Definition sorted (xs : list string) : list string := merge_sort String.le xs.

(** [set(images1.keys()) & set(images2.keys())] *)
Definition common_prefixes (images1 images2 : gmap string Path) : gset string :=
  dom images1 ∩ dom images2.

(** The prefixes in the order the comparison loop visits them; a Python set
    is enumerated in an order of its own, here that of [elements]. *)
Definition matched (images1 images2 : gmap string Path) : list string :=
  sorted (elements (common_prefixes images1 images2)).

End Matcher.

Import Collector Matcher.

(** ** Differencer *)

Module Differencer.

Definition absdiff (a b : Z) : Z := Z.abs (a - b).

(** [ImageChops.difference] at one pixel: the absolute difference of each
    channel. *)
Definition pixel_difference (p q : pixel) : pixel :=
  let '(r1, g1, b1) := p in
  let '(r2, g2, b2) := q in
  (absdiff r1 r2, absdiff g1 g2, absdiff b1 b2).

(** [np.array(ImageChops.difference(img1, img2))] *)
Definition difference (a b : list (list pixel)) : list (list pixel) :=
  zip_with (zip_with pixel_difference) a b.

Definition threshold : Z := 10.

(** One entry of [np.any(diff_array > threshold, axis=2)]. *)
Definition exceeds (d : pixel) : bool :=
  let '(r, g, b) := d in
  (threshold <? r)%Z || (threshold <? g)%Z || (threshold <? b)%Z.

Definition diff_mask (diff_array : list (list pixel)) : list (list bool) :=
  map (map exceeds) diff_array.

(** [np.any(mask)] *)
Definition np_any (mask : list (list bool)) : bool :=
  existsb (existsb id) mask.

(** [np.stack([g, g, g], axis=2).astype(np.uint8)] at one pixel. *)
Definition gray (E : env) (p : pixel) : pixel :=
  let g := luma E p in (g, g, g).

Definition grayscale (E : env) (a : list (list pixel)) : list (list pixel) :=
  map (map (gray E)) a.

Definition highlight : pixel := (255, 50, 50)%Z.

(** [result_array[diff_mask] = [255, 50, 50]]; the mask and the array have
    the shape of the first image. *)
Definition overlay (mask : list (list bool)) (a : list (list pixel))
  : list (list pixel) :=
  zip_with (zip_with (fun (m : bool) p => if m then highlight else p)) mask a.

(** In the words of the specification: some channel of the two pixels
    differs by more than 10. *)
Definition differs (p q : pixel) : Prop :=
  let '(r1, g1, b1) := p in
  let '(r2, g2, b2) := q in
  (10 < Z.abs (r1 - r2) \/ 10 < Z.abs (g1 - g2) \/ 10 < Z.abs (b1 - b2))%Z.

(** The mask of two decoded images of one size, and the third panel. *)
Definition mask_of (img1 img2 : image) : list (list bool) :=
  diff_mask (difference (pixels img1) (pixels img2)).

Definition result_array (E : env) (img1 img2 : image) : list (list pixel) :=
  overlay (mask_of img1 img2) (grayscale E (pixels img1)).

(** [Image.fromarray(a)] *)
Definition fromarray (a : list (list pixel)) : image :=
  Image (length (List.hd [] a), length a) a.

Definition white : pixel := (255, 255, 255)%Z.

(** [Image.new('RGB', (w, h), color)] *)
Definition Image_new (sz : nat * nat) (color : pixel) : image :=
  Image sz (replicate (snd sz) (replicate (fst sz) color)).

Definition pixel_at (a : list (list pixel)) (y x : nat) : option pixel :=
  a !! y ≫= fun row => row !! x.

Definition mask_at (m : list (list bool)) (y x : nat) : option bool :=
  m !! y ≫= fun row => row !! x.

(** [base.paste(img, (x0, y0))] *)
Definition paste (base img : image) (at_ : nat * nat) : image :=
  let '(x0, y0) := at_ in
  let '(w, h) := size img in
  Image (size base)
    (imap (fun y row =>
       imap (fun x p =>
         if bool_decide (y0 ≤ y < y0 + h ∧ x0 ≤ x < x0 + w)
         then default p (pixel_at (pixels img) (y - y0) (x - x0))
         else p) row)
     (pixels base)).

(** The second image as it is compared: resized when the sizes differ. *)
Definition same_size (E : env) (img1 img2 : image) : result image :=
  if decide (size img1 = size img2) then Ok img2
  else resize E img2 (size img1).

Definition create_difference_image (E : env) (fs : FS)
    (img1_path img2_path : Path) : result (image * bool) :=
  img1 ← image_open E fs img1_path;
  img2 ← image_open E fs img2_path;
  img2 ← same_size E img1 img2;
  let diff_mask := mask_of img1 img2 in
  let result_array := result_array E img1 img2 in
  let has_difference := np_any diff_mask in
  let result := fromarray result_array in
  let '(width, height) := size img1 in
  let combined_width := width * 3 in
  let combined_height := height + 40 in
  let combined := Image_new (combined_width, combined_height) white in
  let font :=
    match truetype E with
    | Ok f => f
    | Raise _ => DefaultFont
    end in
  let combined := paste combined img1 (0, 40) in
  let combined := paste combined img2 (width, 40) in
  let combined := paste combined result (width * 2, 40) in
  let wz := Z.of_nat width in
  combined ← draw_text E combined (wz / 2 - 50, 10)%Z "Image 1" font;
  combined ← draw_text E combined (wz + wz / 2 - 50, 10)%Z "Image 2" font;
  combined ← draw_text E combined (wz * 2 + wz / 2 - 70, 10)%Z "Difference" font;
  Ok (combined, has_difference).


End Differencer.

Import Differencer.

(** ** The composite before its labels *)

Module Composite.

(** The image [create_difference_image] hands to the label drawing: the
    white canvas with the three panels pasted under the label strip. *)
Definition panels (E : env) (img1 img2 : image) : image :=
  let result := fromarray (result_array E img1 img2) in
  let '(width, height) := size img1 in
  let combined := Image_new (width * 3, height + 40) white in
  let combined := paste combined img1 (0, 40) in
  let combined := paste combined img2 (width, 40) in
  paste combined result (width * 2, 40).

(** The font the labels are drawn with. *)
Definition label_font (E : env) : font :=
  match truetype E with
  | Ok f => f
  | Raise _ => DefaultFont
  end.

(** A decoded image holds [height] rows of [width] pixels. *)
Definition well_formed (img : image) : Prop :=
  length (pixels img) = snd (size img) /\
  Forall (fun row => length row = fst (size img)) (pixels img).

End Composite.

Import Composite.

(** ** Driver and report *)

Module Driver.

(** [len(x)] of a dict or a set. *)
Abbreviation len x := (base.size x) (only parsing).

(** What a run changes: the lines printed, one entry per [print] call, and
    the file system. *)
Record World : Type := mkWorld {
  stdout : list string;
  files : FS
}.

Definition print (line : string) (w : World) : World :=
  mkWorld (stdout w ++ [line])%list (files w).

Definition with_files (fs : FS) (w : World) : World := mkWorld (stdout w) fs.

(** [p.mkdir(exist_ok=True)], where it returns. *)
Definition mkdir_exist_ok (p : Path) (fs : FS) : FS :=
  match fs !! p with
  | Some _ => fs
  | None => <[p := Directory]> fs
  end.

(** The counters of the comparison loop. *)
Record Tally : Type := mkTally {
  processed : nat;
  files_with_diff : list string;
  files_without_diff : list string
}.

(** [s * n] *)
Fixpoint str_mul (s : string) (n : nat) : string :=
  match n with
  | O => ""
  | S k => s +:+ str_mul s k
  end.

Definition diff_name (prefix : string) : string := prefix +:+ "_diff.png".

Definition error_line (prefix : string) (e : exn) : string :=
  "  Error processing " +:+ prefix +:+ ": " +:+ e.

(** The body of the loop over the sorted common prefixes. *)
Definition process_pair (E : env) (output_dir : Path)
    (images1 images2 : gmap string Path) (st : World * Tally)
    (prefix : string) : World * Tally :=
  let '(w, t) := st in
  match images1 !! prefix, images2 !! prefix with
  | Some img1_path, Some img2_path =>
      let output_path := joinpath output_dir (diff_name prefix) in
      let w := print ("Processing: " +:+ prefix) w in
      match create_difference_image E (files w) img1_path img2_path with
      | Raise e => (print (error_line prefix e) w, t)
      | Ok (diff_image, has_difference) =>
          match save E diff_image output_path (files w) with
          | (fs', Some e) => (print (error_line prefix e) (with_files fs' w), t)
          | (fs', None) =>
              let w := with_files fs' w in
              if has_difference : bool
              then (w, mkTally (processed t + 1)
                         (files_with_diff t ++ [prefix])%list
                         (files_without_diff t))
              else (w, mkTally (processed t + 1)
                         (files_with_diff t)
                         (files_without_diff t ++ [prefix])%list)
          end
      end
  | _, _ => (w, t)  (* KeyError; a common prefix is a key of both *)
  end.

Definition report_name : string := "difference_report.txt".

(** One listing section of the report. *)
Definition listing (prefixes : list string) : string :=
  match prefixes with
  | [] => "(None)" +:+ nl
  | _ => String.concat "" ((fun prefix => prefix +:+ nl) <$> prefixes)
  end.

Definition rule : string := str_mul "=" 60 +:+ nl.

(** Everything written to the report, in order. *)
Definition report (dir1 dir2 : Path) (total : nat) (t : Tally) : string :=
  String.concat "" [
    "Image Difference Comparison Report" +:+ nl;
    str_mul "=" 60 +:+ nl +:+ nl;
    "Directory 1: " +:+ path_str dir1 +:+ nl;
    "Directory 2: " +:+ path_str dir2 +:+ nl;
    "Total image pairs: " +:+ pretty total +:+ nl;
    "Processed: " +:+ pretty (processed t) +:+ nl;
    "Images with differences: " +:+ pretty (length (files_with_diff t)) +:+ nl;
    "Images without differences: "
      +:+ pretty (length (files_without_diff t)) +:+ nl +:+ nl;
    rule; "Files with Differences" +:+ nl; rule;
    listing (files_with_diff t);
    nl;
    rule; "Files without Differences" +:+ nl; rule;
    listing (files_without_diff t)
  ].

(** The loop, from the empty tally. *)
Definition process_all (E : env) (output_dir : Path)
    (images1 images2 : gmap string Path) (w : World)
    (prefixes : list string) : World * Tally :=
  foldl (process_pair E output_dir images1 images2) (w, mkTally 0 [] [])
    prefixes.

Definition compare_directories (E : env) (dir1 dir2 output_dir : Path)
    (w : World) : World :=
  let w := with_files (mkdir_exist_ok output_dir (files w)) w in
  let w := print ("Scanning directory 1: " +:+ path_str dir1) w in
  let images1 := collect_images E (files w) dir1 in
  let w := print ("  Found " +:+ pretty (len images1) +:+ " images") w in
  let w := print ("Scanning directory 2: " +:+ path_str dir2) w in
  let images2 := collect_images E (files w) dir2 in
  let w := print ("  Found " +:+ pretty (len images2) +:+ " images") w in
  let common := common_prefixes images1 images2 in
  let w := print (nl +:+ "Found " +:+ pretty (len common)
                     +:+ " matching image pairs") w in
  if decide (common = ∅) then print "No matching images found!" w
  else
    let '(w, t) :=
      process_all E output_dir images1 images2 w (sorted (elements common)) in
    let report_path := joinpath output_dir report_name in
    let w :=
      with_files
        (<[report_path := Text (report dir1 dir2 (len common) t)]> (files w))
        w in
    let w := print (nl +:+ "Completed! Processed " +:+ pretty (processed t)
                       +:+ "/" +:+ pretty (len common) +:+ " image pairs") w in
    let w := print ("  Images with differences: "
                       +:+ pretty (length (files_with_diff t))) w in
    let w := print ("  Images without differences: "
                       +:+ pretty (length (files_without_diff t))) w in
    let w := print ("Results saved to: " +:+ path_str output_dir) w in
    print ("Report saved to: " +:+ path_str report_path) w.


(** *** The trace of the loop

    What happened to each pair, read off the same calls as [process_pair]
    makes them. *)
Inductive outcome : Type :=
  | Saved (has_difference : bool)   (* composed and saved *)
  | NotComposed (e : exn)           (* [create_difference_image] raised *)
  | NotSaved (e : exn).             (* composed; [save] raised *)

Fixpoint trace (E : env) (output_dir : Path)
    (images1 images2 : gmap string Path) (fs : FS) (prefixes : list string)
  : list (string * outcome) * FS :=
  match prefixes with
  | [] => ([], fs)
  | prefix :: rest =>
      match images1 !! prefix, images2 !! prefix with
      | Some img1_path, Some img2_path =>
          match create_difference_image E fs img1_path img2_path with
          | Raise e =>
              let '(os, fs') := trace E output_dir images1 images2 fs rest in
              ((prefix, NotComposed e) :: os, fs')
          | Ok (diff_image, has_difference) =>
              match save E diff_image
                      (joinpath output_dir (diff_name prefix)) fs with
              | (fs1, Some e) =>
                  let '(os, fs') :=
                    trace E output_dir images1 images2 fs1 rest in
                  ((prefix, NotSaved e) :: os, fs')
              | (fs1, None) =>
                  let '(os, fs') :=
                    trace E output_dir images1 images2 fs1 rest in
                  ((prefix, Saved has_difference) :: os, fs')
              end
          end
      | _, _ => trace E output_dir images1 images2 fs rest
      end
  end.

(** The lines a pair prints. *)
Definition pair_lines (po : string * outcome) : list string :=
  match po.2 with
  | Saved _ => ["Processing: " +:+ po.1]
  | NotComposed e | NotSaved e =>
      ["Processing: " +:+ po.1; error_line po.1 e]
  end.

Definition saved_as (b : bool) (po : string * outcome) : option string :=
  match po.2 with
  | Saved b' => if Bool.eqb b b' then Some po.1 else None
  | _ => None
  end.

Definition failed (po : string * outcome) : bool :=
  match po.2 with
  | Saved _ => false
  | _ => true
  end.

(** The trace of the loop of [compare_directories], and the file system the
    loop starts from. *)
Definition loop_start (output_dir : Path) (w : World) : FS :=
  mkdir_exist_ok output_dir (files w).

Definition loop_trace (E : env) (dir1 dir2 output_dir : Path) (w : World)
  : list (string * outcome) :=
  let fs := loop_start output_dir w in
  let images1 := collect_images E fs dir1 in
  let images2 := collect_images E fs dir2 in
  (trace E output_dir images1 images2 fs (matched images1 images2)).1.


(** [save] writes the path it is given and no other. *)
Definition save_writes_its_path (E : env) : Prop :=
  forall img p fs q, q <> p -> (save E img p fs).1 !! q = fs !! q.

End Driver.

Import Driver.

(** ** Sample environments and data *)

Module Sample.

(** Nearest-neighbour resampling, standing in for the LANCZOS filter. *)
Definition nearest (img : image) (sz : nat * nat) : image :=
  let '(w, h) := sz in
  let '(w0, h0) := size img in
  Image sz
    ((fun y =>
        (fun x =>
           default white (pixel_at (pixels img) (y * h0 / h) (x * w0 / w)))
        <$> seq 0 w)
     <$> seq 0 h).

(** The weighted sum in exact arithmetic, truncated. *)
Definition luma_exact (p : pixel) : Z :=
  let '(r, g, b) := p in ((299 * r + 587 * g + 114 * b) / 1000)%Z.

Definition read_png (fs : FS) (p : Path) : result image :=
  match fs !! p with
  | Some (Png img) => Ok img
  | Some _ => Raise "cannot identify image file"
  | None => Raise "No such file or directory"
  end.

Definition write_png (img : image) (p : Path) (fs : FS) : FS * option exn :=
  (<[p := Png img]> fs, None).

(** A save that opens its file for writing and then runs out of space: a
    file that was there stays, truncated; a file that was not there is not
    left behind. *)
Definition write_partial (img : image) (p : Path) (fs : FS)
  : FS * option exn :=
  match fs !! p with
  | Some _ => (<[p := Garbage ""]> fs, Some "No space left on device")
  | None => (fs, Some "No space left on device")
  end.

(** An environment whose directories hold the given entries, without the
    preferred font, that draws no text. *)
Definition sample_env (dirs : gmap Path (list string))
    (save : image -> Path -> FS -> FS * option exn) : env :=
  {| is_dir := fun _ p => bool_decide (is_Some (dirs !! p));
     scandir := fun _ p => default [] (dirs !! p);
     image_open := read_png;
     resize := fun img sz => Ok (nearest img sz);
     luma := luma_exact;
     truetype := Raise "cannot open resource";
     draw_text := fun img _ _ _ => Ok img;
     save := save |}.

Definition before : Path := ["before"].
Definition after : Path := ["after"].
Definition out : Path := ["out"].

Definition dirs_a : gmap Path (list string) :=
  {[ before := ["a_20250101_000000.png"; "notes.txt"];
     after := ["a_20250101_000001.png"] ]}.

(** Two one-row images: the first pixels differ by exactly the threshold in
    one channel, the second by one more. *)
Definition shot1 : image :=
  Image (2, 1) [[(100, 100, 100); (50, 50, 50)]]%Z.
Definition shot2 : image :=
  Image (2, 1) [[(110, 100, 100); (50, 61, 50)]]%Z.

Definition fs_a : FS :=
  {[ joinpath before "a_20250101_000000.png" := Png shot1;
     joinpath after "a_20250101_000001.png" := Png shot2;
     before := Directory; after := Directory ]}.

(** The same files after an earlier run has written its composite. *)
Definition fs_second_run : FS :=
  <[joinpath out "a_diff.png" := Png shot1]> (<[out := Directory]> fs_a).

(** The same directories with an undecodable second file. *)
Definition fs_broken : FS :=
  <[joinpath after "a_20250101_000001.png" := Garbage "not a png"]> fs_a.

(** A directory in which two names normalize to one prefix. *)
Definition dirs_collide : gmap Path (list string) :=
  {[ before := ["a_20250101_000000.png"; "readme.md";
                "a_20250102_000000.png"] ]}.


(** Directories without a common prefix. *)
Definition dirs_disjoint : gmap Path (list string) :=
  {[ before := ["a_20250101_000000.png"];
     after := ["b_20250101_000001.png"] ]}.

End Sample.

Import Sample.

(** * Properties *)

(** ** Prefix extraction *)

Module PrefixProps.

#[local] Arguments String.append !s1 s2 : simpl nomatch.
#[local] Arguments atom_matches : simpl never.

Lemma atom_matches_Lit x c : atom_matches (Lit x) c = true -> x = c.
Proof. apply Ascii.eqb_eq. Qed.

Lemma app_assoc_s (a b c : string) : (a +:+ b) +:+ c = a +:+ b +:+ c.
Proof. induction a as [|x a IH]; simpl; [done | by rewrite IH]. Qed.

Lemma app_nil_r_s (a : string) : a +:+ "" = a.
Proof. induction a as [|x a IH]; simpl; [done | by rewrite IH]. Qed.

Lemma app_length_s (a b : string) :
  String.length (a +:+ b) = String.length a + String.length b.
Proof. induction a as [|x a IH]; simpl; [done | by rewrite IH]. Qed.

Lemma last_char_app (a b : string) :
  b <> "" -> last_char (a +:+ b) = last_char b.
Proof.
  intros Hb. induction a as [|x a IH]; [done |].
  unfold last_char in *. simpl.
  destruct (a +:+ b) as [|y r] eqn:Hab.
  - destruct a; simpl in Hab; [congruence | discriminate].
  - simpl in IH |- *. exact IH.
Qed.

Lemma match_atoms_shape p s rest :
  match_atoms p s = Some rest <-> exists m, s = m +:+ rest /\ shape p m.
Proof.
  revert s. induction p as [|a p IH]; intros s; simpl.
  - split.
    + intros [= ->]. by exists "".
    + intros ([|c m] & -> & Hm); [done | destruct Hm].
  - destruct s as [|c s].
    + split; [done |]. intros ([|c m] & Hs & Hm); [destruct Hm | discriminate].
    + destruct (atom_matches a c) eqn:Hac.
      * rewrite IH. split.
        -- intros (m & -> & Hm). by exists (String c m).
        -- intros ([|c' m] & Hs & Hm); [destruct Hm |].
           simpl in Hs. injection Hs as <- ->. exists m. tauto.
      * split; [done |]. intros ([|c' m] & Hs & Hm); [destruct Hm |].
        simpl in Hs. injection Hs as <- ->. destruct Hm. congruence.
Qed.

Lemma shape_length p m : shape p m -> String.length m = length p.
Proof.
  revert m. induction p as [|a p IH]; intros [|c m]; simpl; try tauto.
  intros [_ Hm]. by rewrite (IH m).
Qed.

Lemma timestamp_suffix_shape t : timestamp_suffix t <-> shape pattern t.
Proof.
  split.
  - intros (d8 & d6 & H8 & D8 & H6 & D6 & ->).
    do 9 (destruct d8 as [|? d8]; try discriminate H8).
    do 7 (destruct d6 as [|? d6]; try discriminate H6).
    unfold digits in *. simpl in D8, D6.
    repeat match goal with
           | H : Forall _ (_ :: _) |- _ => apply Forall_cons_1 in H; destruct H
           end.
    simpl. repeat split; assumption.
  - intros H. pose proof (shape_length _ _ H) as Hlen.
    do 21 (destruct t as [|? t]; try discriminate Hlen).
    simpl in H.
    repeat match goal with
           | H : _ /\ _ |- _ => destruct H
           | H : atom_matches (Lit _) _ = true |- _ =>
               apply atom_matches_Lit in H; subst
           end.
    eexists (String _ (String _ (String _ (String _
              (String _ (String _ (String _ (String _ "")))))))),
            (String _ (String _ (String _ (String _ (String _ (String _ "")))))).
    split_and!; [reflexivity | | reflexivity | | reflexivity];
      unfold digits; simpl; repeat constructor; assumption.
Qed.

Lemma timestamp_suffix_length t : timestamp_suffix t -> String.length t = 20.
Proof. intros H%timestamp_suffix_shape. by apply shape_length in H. Qed.

Lemma timestamp_suffix_last t : timestamp_suffix t -> last_char t = Some "g"%char.
Proof.
  intros (d8 & d6 & _ & _ & _ & _ & ->).
  rewrite <- !app_assoc_s. by rewrite last_char_app.
Qed.

(** Where the pattern matches: at a timestamp suffix that ends the string,
    or that is followed by one last newline. *)
Lemma matches_here_iff s :
  matches_here pattern s = true <->
  timestamp_suffix s \/ exists t, timestamp_suffix t /\ s = t +:+ nl.
Proof.
  unfold matches_here. split.
  - destruct (match_atoms pattern s) as [rest|] eqn:Hm; [|done].
    apply match_atoms_shape in Hm as (m & -> & Hm%timestamp_suffix_shape).
    destruct rest as [|c [|c' rest]]; simpl; try done.
    + intros _. left. by rewrite app_nil_r_s.
    + intros ->%Ascii.eqb_eq. right. by exists m.
  - intros [H | (t & H & ->)].
    + apply timestamp_suffix_shape in H.
      assert (match_atoms pattern s = Some "") as ->; [|done].
      apply match_atoms_shape. exists s. by rewrite app_nil_r_s.
    + apply timestamp_suffix_shape in H.
      assert (match_atoms pattern (t +:+ nl) = Some nl) as ->; [|done].
      apply match_atoms_shape. by exists t.
Qed.

Lemma matches_here_length s :
  matches_here pattern s = true ->
  String.length s = 20 \/
  (String.length s = 21 /\ last_char s = Some newline).
Proof.
  intros [H | (t & H & ->)]%matches_here_iff.
  - left. by apply timestamp_suffix_length.
  - right. rewrite app_length_s, (timestamp_suffix_length t H).
    split; [done |]. by rewrite last_char_app.
Qed.


(** The characters of a match are dropped; the scan resumes after them. *)
Lemma sub_scan_skip repl m rest :
  sub_scan pattern repl (String.length m) (m +:+ rest)
  = sub_scan pattern repl 0 rest.
Proof. induction m as [|c m IH]; simpl; [done | exact IH]. Qed.

Lemma sub_scan_match repl t rest :
  timestamp_suffix t -> matches_here pattern (t +:+ rest) = true ->
  sub_scan pattern repl 0 (t +:+ rest)
  = repl +:+ sub_scan pattern repl 0 rest.
Proof.
  intros Ht Hm. pose proof (timestamp_suffix_length t Ht) as Hlen.
  destruct t as [|c t]; [discriminate Hlen |].
  simpl in Hm |- *. simpl in Hm. rewrite Hm. f_equal.
  injection Hlen as Hlen.
  change (pred (length pattern)) with 19. rewrite <- Hlen.
  apply sub_scan_skip.
Qed.

Lemma timestamp_suffix_nonempty t : timestamp_suffix t -> t <> "".
Proof. intros H%timestamp_suffix_length ->. discriminate H. Qed.



Lemma extract_prefix_suffix base t :
  timestamp_suffix t -> extract_prefix (base +:+ t) = base.
Proof.
  intros Ht. change (sub_scan pattern "" 0 (base +:+ t) = base).
  induction base as [|c base IH].
  - change ("" +:+ t) with t. rewrite <- (app_nil_r_s t) at 1.
    rewrite (sub_scan_match "" t ""); [done | done |].
    apply matches_here_iff. left. by rewrite app_nil_r_s.
  - simpl. destruct (matches_here pattern (String c (base +:+ t))) eqn:Hm.
    + exfalso. pose proof (timestamp_suffix_length t Ht) as Hlen.
      pose proof (timestamp_suffix_last t Ht) as Hlast.
      apply matches_here_length in Hm. simpl in Hm.
      rewrite app_length_s, Hlen in Hm.
      destruct Hm as [Hm | [Hm Hnl]]; [lia |].
      change (String c (base +:+ t)) with (String c base +:+ t) in Hnl.
      rewrite last_char_app in Hnl by by apply timestamp_suffix_nonempty.
      rewrite Hlast in Hnl. unfold newline in Hnl. discriminate Hnl.
    + by rewrite IH.
Qed.

Lemma extract_prefix_suffix_nl base t :
  timestamp_suffix t -> extract_prefix (base +:+ t +:+ nl) = base +:+ nl.
Proof.
  intros Ht. change (sub_scan pattern "" 0 (base +:+ t +:+ nl) = base +:+ nl).
  induction base as [|c base IH].
  - change ("" +:+ t +:+ nl) with (t +:+ nl).
    rewrite (sub_scan_match "" t nl); [done | done |].
    apply matches_here_iff. right. by exists t.
  - simpl. destruct (matches_here pattern (String c (base +:+ t +:+ nl))) eqn:Hm.
    + exfalso. pose proof (timestamp_suffix_length t Ht) as Hlen.
      apply matches_here_length in Hm. simpl in Hm.
      rewrite !app_length_s, Hlen in Hm. simpl in Hm. lia.
    + by rewrite IH.
Qed.


Example extract_prefix_docstring :
  extract_prefix "mieru-ca.com_solution_ga4_pc_20260116_021751.png"
  = "mieru-ca.com_solution_ga4_pc".
Proof. reflexivity. Qed.

Example extract_prefix_short_date :
  extract_prefix "a_2026011_021751.png" = "a_2026011_021751.png".
Proof. reflexivity. Qed.





End PrefixProps.

(** ** Collector *)

Module CollectorProps.

#[local] Arguments String.append !s1 s2 : simpl nomatch.

(** The glob pattern [*.png] selects the names that end in [.png]. *)
Lemma fnmatch_star_spec lit s :
  fnmatch_star lit s = true <-> exists stem, s = stem +:+ lit.
Proof.
  induction s as [|c s IH]; cbn [fnmatch_star].
  - rewrite orb_false_r, String.eqb_eq. split.
    + intros <-. by exists "".
    + intros ([|c stem] & H); [done | discriminate H].
  - rewrite orb_true_iff, String.eqb_eq, IH. split.
    + intros [<- | (stem & ->)]; [by exists "" | by exists (String c stem)].
    + intros ([|c' stem] & H); [by left |].
      simpl in H. injection H as <- ->. right. by exists stem.
Qed.

Lemma name_joinpath d n : name (joinpath d n) = n.
Proof. unfold name, joinpath. apply last_last. Qed.

(** The index built from a listing: a key is bound to the path of the last
    matching entry that normalizes to it. *)
Lemma index_of_listing d (ns : list string) k p :
  foldl index_file ∅ (joinpath d <$> List.filter (fnmatch_star ".png") ns) !! k
    = Some p <->
  exists l1 n l2,
    ns = (l1 ++ n :: l2)%list /\ fnmatch_star ".png" n = true /\
    extract_prefix n = k /\ p = joinpath d n /\
    forall n', n' ∈ l2 -> fnmatch_star ".png" n' = true ->
               extract_prefix n' <> k.
Proof.
  revert k p. induction ns as [|x ns IH] using rev_ind; intros k p.
  - simpl. rewrite lookup_empty. split; [done |].
    intros (l1 & n & l2 & H & _). by destruct l1.
  - rewrite List.filter_app, fmap_app, foldl_app. simpl.
    destruct (fnmatch_star ".png" x) eqn:Hx; simpl.
    + unfold index_file at 1. rewrite name_joinpath.
      destruct (decide (extract_prefix x = k)) as [Hk | Hk].
      * rewrite Hk, lookup_insert_eq. split.
        -- intros [= <-]. exists ns, x, []. split_and!; try done.
           intros n' Hn'. by apply elem_of_nil in Hn'.
        -- intros (l1 & n & l2 & H & _ & _ & -> & Hlast).
           destruct l2 as [|y l2 IHl2] using rev_ind.
           ++ apply app_inj_tail in H as [_ ->]. done.
           ++ rewrite app_comm_cons, app_assoc in H.
              apply app_inj_tail in H as [_ ->].
              exfalso. apply (Hlast y); [| done | done].
              apply elem_of_app. right. by apply list_elem_of_singleton.
      * rewrite lookup_insert_ne by done. rewrite IH. split.
        -- intros (l1 & n & l2 & -> & Hn & Hp & -> & Hlast).
           exists l1, n, (l2 ++ [x])%list. split_and!; try done.
           ++ by rewrite <- app_assoc.
           ++ intros n' [Hn' | ->%list_elem_of_singleton]%elem_of_app;
                [by apply Hlast | done].
        -- intros (l1 & n & l2 & H & Hn & Hp & -> & Hlast).
           destruct l2 as [|y l2 IHl2] using rev_ind.
           ++ apply app_inj_tail in H as [_ ->]. done.
           ++ rewrite app_comm_cons, app_assoc in H.
              apply app_inj_tail in H as [-> ->].
              exists l1, n, l2. split_and!; try done.
              intros n' Hn'. apply Hlast, elem_of_app. by left.
    + rewrite IH. split.
      * intros (l1 & n & l2 & -> & Hn & Hp & -> & Hlast).
        exists l1, n, (l2 ++ [x])%list. split_and!; try done.
        -- by rewrite <- app_assoc.
        -- intros n' [Hn' | ->%list_elem_of_singleton]%elem_of_app;
             [by apply Hlast | congruence].
      * intros (l1 & n & l2 & H & Hn & Hp & -> & Hlast).
        destruct l2 as [|y l2 IHl2] using rev_ind.
        -- apply app_inj_tail in H as [_ ->]. congruence.
        -- rewrite app_comm_cons, app_assoc in H.
           apply app_inj_tail in H as [-> ->].
           exists l1, n, l2. split_and!; try done.
           intros n' Hn'. apply Hlast, elem_of_app. by left.
Qed.

(** C8: the index binds a prefix to a path exactly when the path is that of
    an entry of the directory itself whose name ends in [.png] and
    normalizes to the prefix, and no later such entry of the enumeration
    normalizes to the same prefix: one path per prefix, the last one
    enumerated. *)
Theorem collect_images_spec (E : env) (fs : FS) (directory : Path)
    (prefix : string) (file : Path) :
  collect_images E fs directory !! prefix = Some file <->
  exists earlier entry later stem,
    scandir E fs directory = (earlier ++ entry :: later)%list /\
    entry = stem +:+ ".png" /\
    extract_prefix entry = prefix /\
    file = joinpath directory entry /\
    forall entry' stem', entry' ∈ later -> entry' = stem' +:+ ".png" ->
                         extract_prefix entry' <> prefix.
Proof.
  unfold collect_images, glob_png. rewrite index_of_listing. split.
  - intros (l1 & n & l2 & H & Hn & Hp & -> & Hlast).
    apply fnmatch_star_spec in Hn as [stem Hstem].
    exists l1, n, l2, stem. split_and!; try done.
    intros n' stem' Hn' Hs. apply Hlast; [done |].
    apply fnmatch_star_spec. by exists stem'.
  - intros (l1 & n & l2 & stem & H & Hn & Hp & -> & Hlast).
    exists l1, n, l2. split_and!; try done.
    + apply fnmatch_star_spec. by exists stem.
    + intros n' Hn' [stem' Hs]%fnmatch_star_spec. by apply (Hlast n' stem').
Qed.

Lemma collect_images_spec_witness :
  collect_images (sample_env dirs_collide write_png) fs_a before !! "a"
  = Some (joinpath before "a_20250102_000000.png").
Proof.
  apply (collect_images_spec (sample_env dirs_collide write_png) fs_a before).
  exists ["a_20250101_000000.png"; "readme.md"], "a_20250102_000000.png",
         [], "a_20250102_000000".
  split_and!; try (vm_compute; reflexivity).
  intros entry' stem' Hin. by apply elem_of_nil in Hin.
Defined.

End CollectorProps.

(** ** Matcher *)

Module MatcherProps.

(** [String.le] is the lexicographic order of the code points. *)
Lemma le_lexicographic (a b : ascii) (s t : string) :
  String.le "" t /\ ~ String.le (String a s) "" /\
  (String.le (String a s) (String b t) <->
   (N_of_ascii a < N_of_ascii b)%N \/ (a = b /\ String.le s t)).
Proof.
  unfold String.le, String.leb. split_and!.
  - by destruct t.
  - simpl. tauto.
  - simpl. unfold Ascii.compare.
    destruct (N.compare_spec (N_of_ascii a) (N_of_ascii b)) as [H | H | H].
    + assert (a = b) as ->.
      { by rewrite <- (ascii_N_embedding a), H, ascii_N_embedding. }
      split; [by right | intros [? | [_ ?]]; [lia | done]].
    + simpl. split; [by left | done].
    + simpl. split; [done |]. intros [? | [-> _]]; lia.
Qed.

Lemma elem_of_common_prefixes (images1 images2 : gmap string Path) k :
  k ∈ common_prefixes images1 images2 <->
  is_Some (images1 !! k) /\ is_Some (images2 !! k).
Proof. unfold common_prefixes. by rewrite elem_of_intersection, !elem_of_dom. Qed.

Lemma sorted_perm (xs : list string) : sorted xs ≡ₚ xs.
Proof. apply merge_sort_Permutation. Qed.




End MatcherProps.

(** ** Differencer *)

Module DifferencerProps.

Lemma exceeds_differs p q : exceeds (pixel_difference p q) = true <-> differs p q.
Proof.
  destruct p as [[r1 g1] b1], q as [[r2 g2] b2].
  unfold exceeds, pixel_difference, differs, absdiff, threshold.
  rewrite !orb_true_iff, !Z.ltb_lt. tauto.
Qed.

Lemma absdiff_comm a b : absdiff a b = absdiff b a.
Proof. unfold absdiff. lia. Qed.

Lemma pixel_difference_comm p q : pixel_difference p q = pixel_difference q p.
Proof.
  destruct p as [[r1 g1] b1], q as [[r2 g2] b2]. unfold pixel_difference.
  by rewrite (absdiff_comm r1), (absdiff_comm g1), (absdiff_comm b1).
Qed.

Lemma zip_with_comm {A B} (f : A -> A -> B) (l k : list A) :
  (forall x y, f x y = f y x) -> zip_with f l k = zip_with f k l.
Proof.
  intros Hf. revert k. induction l as [|x l IH]; intros [|y k]; simpl; try done.
  by rewrite Hf, IH.
Qed.

Lemma difference_comm a b : difference a b = difference b a.
Proof.
  unfold difference. apply zip_with_comm. intros r1 r2.
  apply zip_with_comm, pixel_difference_comm.
Qed.

Lemma mask_of_comm img1 img2 : mask_of img1 img2 = mask_of img2 img1.
Proof. unfold mask_of. by rewrite difference_comm. Qed.

(** The mask entry at a position both images have. *)
Lemma mask_at_mask_of img1 img2 y x :
  mask_at (mask_of img1 img2) y x =
  p ← pixel_at (pixels img1) y x;
  q ← pixel_at (pixels img2) y x;
  Some (exceeds (pixel_difference p q)).
Proof.
  unfold mask_at, pixel_at, mask_of, diff_mask, difference.
  change (map (map exceeds)) with (fmap (M := list) (fmap (M := list) exceeds)).
  rewrite list_lookup_fmap, lookup_zip_with.
  destruct (pixels img1 !! y) as [r1|]; simpl; [|done].
  destruct (pixels img2 !! y) as [r2|]; simpl.
  - rewrite list_lookup_fmap, lookup_zip_with.
    destruct (r1 !! x) as [p|]; simpl; [|done].
    by destruct (r2 !! x) as [q|].
  - by destruct (r1 !! x).
Qed.

Lemma np_any_spec mask :
  np_any mask = true <-> exists y x, mask_at mask y x = Some true.
Proof.
  unfold np_any, mask_at. rewrite existsb_exists. split.
  - intros (row & Hrow & Hex). apply existsb_exists in Hex as (m & Hm & Hid).
    apply list_elem_of_In, list_elem_of_lookup in Hrow as [y Hy].
    apply list_elem_of_In, list_elem_of_lookup in Hm as [x Hx].
    exists y, x. rewrite Hy. simpl. rewrite Hx. by rewrite <- Hid.
  - intros (y & x & H). destruct (mask !! y) as [row|] eqn:Hy; [|done].
    simpl in H. exists row. split.
    + apply list_elem_of_In, list_elem_of_lookup. by exists y.
    + apply existsb_exists. exists true. split; [|done].
      apply list_elem_of_In, list_elem_of_lookup. by exists x.
Qed.

(** What a returning call has done: both files were decoded, the second
    image was brought to the size of the first, and the flag is [np.any] of
    their mask. *)
Lemma create_difference_image_inv E fs p1 p2 combined flag :
  create_difference_image E fs p1 p2 = Ok (combined, flag) ->
  exists img1 img2 img2',
    image_open E fs p1 = Ok img1 /\ image_open E fs p2 = Ok img2 /\
    same_size E img1 img2 = Ok img2' /\
    flag = np_any (mask_of img1 img2').
Proof.
  unfold create_difference_image. intros H.
  destruct (image_open E fs p1) as [img1|] eqn:H1; [|done].
  destruct (image_open E fs p2) as [img2|] eqn:H2; [|done].
  simpl in H.
  destruct (same_size E img1 img2) as [img2'|] eqn:H3; [|done].
  simpl in H. destruct (size img1) as [width height].
  repeat match type of H with
         | (match ?d with _ => _ end ≫= _) = _ => destruct d; simpl in H
         | (?d ≫= _) = _ => destruct d; simpl in H
         end; try done.
  injection H as _ <-. by exists img1, img2, img2'.
Qed.

Lemma same_size_spec E img1 img2 img2' :
  same_size E img1 img2 = Ok img2' <->
  (size img1 = size img2 /\ img2' = img2) \/
  (size img1 <> size img2 /\ resize E img2 (size img1) = Ok img2').
Proof.
  unfold same_size. destruct (decide (size img1 = size img2)); split.
  - intros [= ->]. by left.
  - intros [[_ ->] | [? _]]; done.
  - intros H. by right.
  - intros [[? _] | [_ H]]; done.
Qed.







Lemma gray_not_highlight E p : gray E p <> highlight.
Proof. unfold gray, highlight. intros [= H1 H2]. lia. Qed.

(** A channel difference of exactly 10 marks nothing; one of 11 does. *)
Example mask_at_threshold :
  mask_at (mask_of shot1 shot2) 0 0 = Some false /\
  mask_at (mask_of shot1 shot2) 0 1 = Some true /\
  np_any (mask_of shot1 shot2) = true.
Proof. split_and!; reflexivity. Qed.

(** C1: once both files are decoded and the second image has the size of
    the first (resized if their sizes differ), the mask has an entry at
    every position of both images, the entry is true exactly when some
    channel differs by more than 10, and the returned flag is true exactly
    when some entry of the mask is. *)
Theorem difference_mask_spec (E : env) (fs : FS) (img1_path img2_path : Path)
    (combined : image) (has_difference : bool) :
  create_difference_image E fs img1_path img2_path
    = Ok (combined, has_difference) ->
  exists img1 img2 img2',
    image_open E fs img1_path = Ok img1 /\
    image_open E fs img2_path = Ok img2 /\
    ((size img1 = size img2 /\ img2' = img2) \/
     (size img1 <> size img2 /\ resize E img2 (size img1) = Ok img2')) /\
    (forall y x p q,
       pixel_at (pixels img1) y x = Some p ->
       pixel_at (pixels img2') y x = Some q ->
       exists marked,
         mask_at (mask_of img1 img2') y x = Some marked /\
         (marked = true <-> differs p q)) /\
    (has_difference = true <->
     exists y x, mask_at (mask_of img1 img2') y x = Some true).
Proof.
  intros (img1 & img2 & img2' & H1 & H2 & H3 & ->)%create_difference_image_inv.
  exists img1, img2, img2'. split_and!; try done.
  - by apply same_size_spec.
  - intros y x p q Hp Hq. exists (exceeds (pixel_difference p q)).
    rewrite mask_at_mask_of, Hp, Hq. split; [done | apply exceeds_differs].
  - apply np_any_spec.
Qed.

Lemma difference_mask_spec_witness :
  exists combined,
    create_difference_image (sample_env dirs_a write_png) fs_a
      (joinpath before "a_20250101_000000.png")
      (joinpath after "a_20250101_000001.png") = Ok (combined, true) /\
    exists img1 img2 img2',
      read_png fs_a (joinpath before "a_20250101_000000.png") = Ok img1 /\
      read_png fs_a (joinpath after "a_20250101_000001.png") = Ok img2 /\
      ((size img1 = size img2 /\ img2' = img2) \/
       (size img1 <> size img2 /\ Ok (nearest img2 (size img1)) = Ok img2')) /\
      (forall y x p q,
         pixel_at (pixels img1) y x = Some p ->
         pixel_at (pixels img2') y x = Some q ->
         exists marked,
           mask_at (mask_of img1 img2') y x = Some marked /\
           (marked = true <-> differs p q)) /\
      (true = true <->
       exists y x, mask_at (mask_of img1 img2') y x = Some true).
Proof.
  eexists. split; [vm_compute; reflexivity |].
  eapply (difference_mask_spec (sample_env dirs_a write_png) fs_a
            (joinpath before "a_20250101_000000.png")
            (joinpath after "a_20250101_000001.png") _ true).
  vm_compute. reflexivity.
Defined.




(** C9: for two images of one size the flag does not depend on the order
    of the arguments. *)
Theorem has_difference_symmetric (E : env) (fs : FS) (p1 p2 : Path)
    (a b c1 c2 : image) (f1 f2 : bool) :
  image_open E fs p1 = Ok a -> image_open E fs p2 = Ok b ->
  size a = size b ->
  create_difference_image E fs p1 p2 = Ok (c1, f1) ->
  create_difference_image E fs p2 p1 = Ok (c2, f2) ->
  f1 = f2 /\ f1 = np_any (mask_of a b) /\ mask_of a b = mask_of b a.
Proof.
  intros Ha Hb Hsize
    (a1 & b1 & b1' & Ha1 & Hb1 & Hs1 & ->)%create_difference_image_inv
    (b2 & a2 & a2' & Hb2 & Ha2 & Hs2 & ->)%create_difference_image_inv.
  rewrite Ha in Ha1, Ha2. rewrite Hb in Hb1, Hb2.
  injection Ha1 as <-. injection Ha2 as <-.
  injection Hb1 as <-. injection Hb2 as <-.
  apply same_size_spec in Hs1 as [[_ ->] | [? _]]; [|done].
  apply same_size_spec in Hs2 as [[_ ->] | [? _]]; [|done].
  by rewrite (mask_of_comm b a).
Qed.

Lemma has_difference_symmetric_witness :
  exists c1 c2,
    create_difference_image (sample_env dirs_a write_png) fs_a
      (joinpath before "a_20250101_000000.png")
      (joinpath after "a_20250101_000001.png") = Ok (c1, true) /\
    create_difference_image (sample_env dirs_a write_png) fs_a
      (joinpath after "a_20250101_000001.png")
      (joinpath before "a_20250101_000000.png") = Ok (c2, true) /\
    (true = true /\ true = np_any (mask_of shot1 shot2)
     /\ mask_of shot1 shot2 = mask_of shot2 shot1).
Proof.
  eexists. eexists. split; [vm_compute; reflexivity |].
  split; [vm_compute; reflexivity |].
  eapply (has_difference_symmetric (sample_env dirs_a write_png) fs_a
            (joinpath before "a_20250101_000000.png")
            (joinpath after "a_20250101_000001.png")
            shot1 shot2 _ _ true true); vm_compute; reflexivity.
Defined.

End DifferencerProps.

(** ** Driver and report *)

Module DriverProps.

#[local] Arguments String.append !s1 s2 : simpl nomatch.

(** The loop against its trace, from any state. *)
Lemma foldl_process_pair E output_dir images1 images2 prefixes w t :
  let '(os, fs') := trace E output_dir images1 images2 (files w) prefixes in
  foldl (process_pair E output_dir images1 images2) (w, t) prefixes
  = (mkWorld (stdout w ++ mjoin (pair_lines <$> os)) fs',
     mkTally (processed t + length (omap (saved_as true) os)
                         + length (omap (saved_as false) os))
             (files_with_diff t ++ omap (saved_as true) os)
             (files_without_diff t ++ omap (saved_as false) os)).
Proof.
  revert w t. induction prefixes as [|prefix rest IH]; intros [out fs] t.
  - simpl. destruct t. simpl. by rewrite !app_nil_r, !Nat.add_0_r.
  - cbn [trace foldl files]. unfold process_pair at 2. cbn [files print].
    destruct (images1 !! prefix) as [p1|]; [|apply (IH (mkWorld out fs))].
    destruct (images2 !! prefix) as [p2|]; [|apply (IH (mkWorld out fs))].
    destruct (create_difference_image E fs p1 p2) as [[img flag]|e].
    + destruct (save E img (joinpath output_dir (diff_name prefix)) fs)
        as [fs1 [e|]].
      * specialize (IH (print (error_line prefix e)
                          (with_files fs1
                             (mkWorld (out ++ ["Processing: " +:+ prefix]) fs)))
                       t).
        cbn [files print with_files stdout] in IH.
        destruct (trace E output_dir images1 images2 fs1 rest) as [os fs'].
        etrans; [exact IH |]. cbn. by rewrite <- !app_assoc.
      * destruct flag.
        -- specialize (IH (with_files fs1
                             (mkWorld (out ++ ["Processing: " +:+ prefix]) fs))
                          (mkTally (processed t + 1)
                             (files_with_diff t ++ [prefix])
                             (files_without_diff t))).
           cbn [files with_files stdout processed files_with_diff
                files_without_diff] in IH.
           destruct (trace E output_dir images1 images2 fs1 rest) as [os fs'].
           etrans; [exact IH |]. cbn. rewrite <- !app_assoc.
           f_equal. f_equal. lia.
        -- specialize (IH (with_files fs1
                             (mkWorld (out ++ ["Processing: " +:+ prefix]) fs))
                          (mkTally (processed t + 1)
                             (files_with_diff t)
                             (files_without_diff t ++ [prefix]))).
           cbn [files with_files stdout processed files_with_diff
                files_without_diff] in IH.
           destruct (trace E output_dir images1 images2 fs1 rest) as [os fs'].
           etrans; [exact IH |]. cbn. rewrite <- !app_assoc.
           f_equal. f_equal. lia.
    + specialize (IH (print (error_line prefix e)
                        (mkWorld (out ++ ["Processing: " +:+ prefix]) fs)) t).
      cbn [files print stdout] in IH.
      destruct (trace E output_dir images1 images2 fs rest) as [os fs'].
      etrans; [exact IH |]. cbn. by rewrite <- !app_assoc.
Qed.

(** Every prefix that is a key of both indexes gets one outcome, in order. *)
Lemma trace_fst E output_dir images1 images2 fs prefixes :
  (forall k, k ∈ prefixes -> k ∈ common_prefixes images1 images2) ->
  (trace E output_dir images1 images2 fs prefixes).1.*1 = prefixes.
Proof.
  revert fs. induction prefixes as [|prefix rest IH]; intros fs Hk; [done |].
  assert (forall fs, (trace E output_dir images1 images2 fs rest).1.*1 = rest)
    as IH'.
  { intros fs0. apply IH. intros k Hin. apply Hk. by right. }
  destruct (MatcherProps.elem_of_common_prefixes images1 images2 prefix)
    as [[[p1 H1] [p2 H2]] _]; [apply Hk; by left |].
  cbn [trace]. rewrite H1, H2.
  destruct (create_difference_image E fs p1 p2) as [[img flag]|e].
  - destruct (save E img (joinpath output_dir (diff_name prefix)) fs)
      as [fs1 [e|]]; specialize (IH' fs1);
      destruct (trace E output_dir images1 images2 fs1 rest); simpl in *;
      f_equal; exact IH'.
  - specialize (IH' fs).
    destruct (trace E output_dir images1 images2 fs rest); simpl in *.
    f_equal; exact IH'.
Qed.

Lemma outcome_unique (os : list (string * outcome)) k o1 o2 :
  NoDup os.*1 -> (k, o1) ∈ os -> (k, o2) ∈ os -> o1 = o2.
Proof.
  induction os as [|[k' o'] os IH]; simpl; intros Hnd H1 H2.
  - by apply elem_of_nil in H1.
  - apply NoDup_cons in Hnd as [Hk' Hnd].
    apply elem_of_cons in H1 as [E1 | H1];
      apply elem_of_cons in H2 as [E2 | H2]; simplify_eq; try done.
    + exfalso. apply Hk'. apply list_elem_of_fmap. by exists (k', o2).
    + exfalso. apply Hk'. apply list_elem_of_fmap. by exists (k', o1).
    + by apply IH.
Qed.

Lemma elem_of_saved_as b (os : list (string * outcome)) k :
  k ∈ omap (saved_as b) os <-> (k, Saved b) ∈ os.
Proof.
  rewrite list_elem_of_omap. split.
  - intros ([k' o] & Hin & Hs). unfold saved_as in Hs. simpl in Hs.
    destruct o as [b'| |]; try done.
    destruct (Bool.eqb b b') eqn:Hb; [|done].
    apply Bool.eqb_prop in Hb as <-. by injection Hs as ->.
  - intros Hin. exists (k, Saved b). split; [done |].
    unfold saved_as. simpl. by rewrite Bool.eqb_reflx.
Qed.

Lemma saved_lengths (os : list (string * outcome)) :
  length (omap (saved_as true) os) + length (omap (saved_as false) os)
  + length (List.filter failed os) = length os.
Proof.
  induction os as [|[k o] os IH]; [done |].
  destruct o as [[|] | e | e]; cbn; cbn in IH; lia.
Qed.

Lemma error_line_logged (os : list (string * outcome)) k e :
  ((k, NotComposed e) ∈ os) \/ ((k, NotSaved e) ∈ os) ->
  error_line k e ∈ mjoin (pair_lines <$> os).
Proof.
  intros H. apply list_elem_of_join.
  destruct H as [H | H].
  - exists (pair_lines (k, NotComposed e)). split.
    + right. by left.
    + apply list_elem_of_fmap. by exists (k, NotComposed e).
  - exists (pair_lines (k, NotSaved e)). split.
    + right. by left.
    + apply list_elem_of_fmap. by exists (k, NotSaved e).
Qed.

Lemma matched_common images1 images2 k :
  k ∈ matched images1 images2 -> k ∈ common_prefixes images1 images2.
Proof.
  unfold matched. by rewrite MatcherProps.sorted_perm, elem_of_elements.
Qed.

Lemma matched_NoDup images1 images2 : NoDup (matched images1 images2).
Proof.
  unfold matched. rewrite MatcherProps.sorted_perm. apply NoDup_elements.
Qed.

Lemma process_all_trace E output_dir images1 images2 w prefixes :
  process_all E output_dir images1 images2 w prefixes
  = (mkWorld
       (stdout w
        ++ mjoin (pair_lines
                    <$> (trace E output_dir images1 images2 (files w)
                           prefixes).1))%list
       (trace E output_dir images1 images2 (files w) prefixes).2,
     mkTally
       (length (omap (saved_as true)
                  (trace E output_dir images1 images2 (files w) prefixes).1)
        + length (omap (saved_as false)
                    (trace E output_dir images1 images2 (files w) prefixes).1))
       (omap (saved_as true)
          (trace E output_dir images1 images2 (files w) prefixes).1)
       (omap (saved_as false)
          (trace E output_dir images1 images2 (files w) prefixes).1)).
Proof.
  unfold process_all.
  pose proof (foldl_process_pair E output_dir images1 images2 prefixes w
                (mkTally 0 [] [])) as H.
  destruct (trace E output_dir images1 images2 (files w) prefixes) as [os fs'].
  exact H.
Qed.

(** C4: every matched pair gets one outcome, in the sorted order, and its
    progress line, whatever happened to the pairs before it.  A pair whose
    processing raised is logged with its prefix and the message and is in
    neither bucket; a pair that was saved is in the bucket of its flag and
    not in the other; the processed count is the sum of the sizes of the
    buckets, and with the failed pairs it adds up to the number of matched
    pairs. *)
Theorem loop_outcomes (E : env) (output_dir : Path)
    (images1 images2 : gmap string Path) (w : World) :
  let prefixes := matched images1 images2 in
  let os := (trace E output_dir images1 images2 (files w) prefixes).1 in
  let w' := (process_all E output_dir images1 images2 w prefixes).1 in
  let t := (process_all E output_dir images1 images2 w prefixes).2 in
  os.*1 = prefixes /\
  stdout w' = (stdout w ++ mjoin (pair_lines <$> os))%list /\
  (forall prefix, prefix ∈ prefixes ->
     ("Processing: " +:+ prefix) ∈ stdout w') /\
  (forall prefix e,
     ((prefix, NotComposed e) ∈ os) \/ ((prefix, NotSaved e) ∈ os) ->
     error_line prefix e ∈ stdout w' /\
     (prefix ∉ files_with_diff t) /\ (prefix ∉ files_without_diff t)) /\
  (forall prefix b, (prefix, Saved b) ∈ os ->
     (prefix ∈ files_with_diff t <-> b = true) /\
     (prefix ∈ files_without_diff t <-> b = false)) /\
  processed t = length (files_with_diff t) + length (files_without_diff t) /\
  processed t + length (List.filter failed os) = length prefixes.
Proof.
  intros prefixes os w' t.
  assert (os.*1 = prefixes) as Hfst.
  { apply trace_fst. apply matched_common. }
  assert (NoDup os.*1) as Hnd.
  { rewrite Hfst. apply matched_NoDup. }
  subst w' t. rewrite process_all_trace. fold os. cbn.
  split_and!; try done.
  - intros prefix Hin. rewrite <- Hfst in Hin.
    apply list_elem_of_fmap in Hin as ([k o] & -> & Hin).
    apply elem_of_app. right. apply list_elem_of_join.
    exists (pair_lines (k, o)). split.
    + destruct o; by left.
    + apply list_elem_of_fmap. by exists (k, o).
  - intros prefix e H. split_and!.
    + apply elem_of_app. right. by apply error_line_logged.
    + intros Hin%elem_of_saved_as.
      destruct H as [H | H]; by pose proof (outcome_unique _ _ _ _ Hnd H Hin).
    + intros Hin%elem_of_saved_as.
      destruct H as [H | H]; by pose proof (outcome_unique _ _ _ _ Hnd H Hin).
  - intros prefix b H. rewrite !elem_of_saved_as. split; split.
    + intros H'. by pose proof (outcome_unique _ _ _ _ Hnd H H') as [= ->].
    + by intros ->.
    + intros H'. by pose proof (outcome_unique _ _ _ _ Hnd H H') as [= ->].
    + by intros ->.
  - rewrite saved_lengths. by rewrite <- Hfst, length_fmap.
Qed.

Lemma loop_outcomes_witness :
  let E := sample_env dirs_a write_png in
  let images1 := collect_images E fs_broken before in
  let images2 := collect_images E fs_broken after in
  let w := mkWorld [] fs_broken in
  let prefixes := matched images1 images2 in
  let os := (trace E out images1 images2 (files w) prefixes).1 in
  let w' := (process_all E out images1 images2 w prefixes).1 in
  let t := (process_all E out images1 images2 w prefixes).2 in
  os = [("a", NotComposed "cannot identify image file")] /\
  (os.*1 = prefixes /\
   stdout w' = (stdout w ++ mjoin (pair_lines <$> os))%list /\
   (forall prefix, prefix ∈ prefixes ->
      ("Processing: " +:+ prefix) ∈ stdout w') /\
   (forall prefix e,
      ((prefix, NotComposed e) ∈ os) \/ ((prefix, NotSaved e) ∈ os) ->
      error_line prefix e ∈ stdout w' /\
      (prefix ∉ files_with_diff t) /\ (prefix ∉ files_without_diff t)) /\
   (forall prefix b, (prefix, Saved b) ∈ os ->
      (prefix ∈ files_with_diff t <-> b = true) /\
      (prefix ∈ files_without_diff t <-> b = false)) /\
   processed t = length (files_with_diff t) + length (files_without_diff t) /\
   processed t + length (List.filter failed os) = length prefixes).
Proof.
  split; [vm_compute; reflexivity |].
  apply (loop_outcomes (sample_env dirs_a write_png) out
           (collect_images (sample_env dirs_a write_png) fs_broken before)
           (collect_images (sample_env dirs_a write_png) fs_broken after)
           (mkWorld [] fs_broken)).
Defined.

Lemma app_inj_r_s (a b c : string) : a +:+ c = b +:+ c -> a = b.
Proof.
  revert b. induction a as [|x a IH]; intros [|y b] H; simpl in H; try done.
  - apply (f_equal String.length) in H. simpl in H.
    rewrite PrefixProps.app_length_s in H. lia.
  - apply (f_equal String.length) in H. simpl in H.
    rewrite PrefixProps.app_length_s in H. lia.
  - injection H as -> H. f_equal. by apply IH.
Qed.

Lemma diff_path_inj output_dir k1 k2 :
  joinpath output_dir (diff_name k1) = joinpath output_dir (diff_name k2) ->
  k1 = k2.
Proof.
  unfold joinpath, diff_name. intros H%app_inv_head. injection H as H.
  by apply app_inj_r_s in H.
Qed.

(** The loop leaves alone the output path of a prefix it does not visit. *)
Lemma trace_frame E output_dir images1 images2 fs prefixes k :
  save_writes_its_path E -> k ∉ prefixes ->
  (trace E output_dir images1 images2 fs prefixes).2
    !! joinpath output_dir (diff_name k)
  = fs !! joinpath output_dir (diff_name k).
Proof.
  intros Hsave. revert fs.
  induction prefixes as [|prefix rest IH]; intros fs Hk; [done |].
  apply not_elem_of_cons in Hk as [Hne Hk].
  cbn [trace].
  destruct (images1 !! prefix) as [p1|]; [|by apply IH].
  destruct (images2 !! prefix) as [p2|]; [|by apply IH].
  destruct (create_difference_image E fs p1 p2) as [[img flag]|e].
  - pose proof (Hsave img (joinpath output_dir (diff_name prefix)) fs
                  (joinpath output_dir (diff_name k))) as Hfr.
    destruct (save E img (joinpath output_dir (diff_name prefix)) fs)
      as [fs1 [e|]]; specialize (IH fs1 Hk);
      destruct (trace E output_dir images1 images2 fs1 rest) as [os fs'];
      simpl in *; rewrite IH; apply Hfr; intros ?%diff_path_inj; done.
  - specialize (IH fs Hk).
    by destruct (trace E output_dir images1 images2 fs rest) as [os fs'].
Qed.

Lemma trace_not_composed E output_dir images1 images2 fs prefixes k e :
  save_writes_its_path E -> NoDup prefixes ->
  (forall k', k' ∈ prefixes -> k' ∈ common_prefixes images1 images2) ->
  (k, NotComposed e)
    ∈ (trace E output_dir images1 images2 fs prefixes).1 ->
  (trace E output_dir images1 images2 fs prefixes).2
    !! joinpath output_dir (diff_name k)
  = fs !! joinpath output_dir (diff_name k).
Proof.
  intros Hsave. revert fs.
  induction prefixes as [|prefix rest IH]; intros fs Hnd Hkeys Hin.
  { by apply elem_of_nil in Hin. }
  apply NoDup_cons in Hnd as [Hfresh Hnd].
  assert (forall k', k' ∈ rest -> k' ∈ common_prefixes images1 images2)
    as Hkeys' by (intros k' ?; apply Hkeys; by right).
  pose proof (fun fs0 => trace_fst E output_dir images1 images2 fs0 rest Hkeys')
    as Hfst.
  pose proof (fun fs0 => trace_frame E output_dir images1 images2 fs0 rest
                           prefix Hsave Hfresh) as Hframe.
  destruct (MatcherProps.elem_of_common_prefixes images1 images2 prefix)
    as [[[p1 H1] [p2 H2]] _]; [apply Hkeys; by left |].
  cbn [trace] in *. rewrite H1, H2 in *.
  assert (forall fs1 o,
            (k, NotComposed e)
              ∈ (prefix, o)
                  :: (trace E output_dir images1 images2 fs1 rest).1 ->
            o <> NotComposed e \/ k <> prefix ->
            k <> prefix /\
            (k, NotComposed e)
              ∈ (trace E output_dir images1 images2 fs1 rest).1) as Htail.
  { intros fs1 o [Heq | Hin']%elem_of_cons Hor.
    - injection Heq as -> <-. by destruct Hor.
    - split; [|done]. intros ->. apply Hfresh. rewrite <- (Hfst fs1).
      apply list_elem_of_fmap. by exists (prefix, NotComposed e). }
  destruct (create_difference_image E fs p1 p2) as [[img flag]|e'].
  - pose proof (Hsave img (joinpath output_dir (diff_name prefix)) fs
                  (joinpath output_dir (diff_name k))) as Hfr.
    destruct (save E img (joinpath output_dir (diff_name prefix)) fs)
      as [fs1 [e'|]]; specialize (IH fs1 Hnd Hkeys');
      specialize (Htail fs1);
      destruct (trace E output_dir images1 images2 fs1 rest) as [os fs'];
      simpl in *;
      (apply Htail in Hin as [Hne Hin]; [|by left]);
      rewrite (IH Hin); apply Hfr; intros ?%diff_path_inj; done.
  - specialize (IH fs Hnd Hkeys'). specialize (Htail fs).
    specialize (Hframe fs).
    destruct (trace E output_dir images1 images2 fs rest) as [os fs'].
    simpl in *.
    destruct (decide (k = prefix)) as [-> | Hne]; [exact Hframe |].
    apply Htail in Hin as [_ Hin]; [|by right]. by apply IH.
Qed.

Lemma joinpath_ne d n : joinpath d n <> d.
Proof.
  unfold joinpath. intros H%(f_equal length).
  rewrite length_app in H. simpl in H. lia.
Qed.

Lemma mkdir_exist_ok_frame output_dir fs p :
  p <> output_dir -> mkdir_exist_ok output_dir fs !! p = fs !! p.
Proof.
  intros Hne. unfold mkdir_exist_ok.
  destruct (fs !! output_dir); [done | by rewrite lookup_insert_ne].
Qed.

Lemma diff_name_not_report prefix : diff_name prefix <> report_name.
Proof.
  unfold diff_name, report_name. intros H%(f_equal last_char).
  rewrite PrefixProps.last_char_app in H by done. vm_compute in H.
  discriminate H.
Qed.

Lemma diff_path_not_report output_dir prefix :
  joinpath output_dir (diff_name prefix) <> joinpath output_dir report_name.
Proof.
  unfold joinpath. intros H%app_inv_head. injection H as H.
  by apply diff_name_not_report in H.
Qed.

(** The run when no prefix is common to the two directories. *)
Lemma compare_directories_empty E dir1 dir2 output_dir w :
  common_prefixes (collect_images E (loop_start output_dir w) dir1)
                  (collect_images E (loop_start output_dir w) dir2) = ∅ ->
  compare_directories E dir1 dir2 output_dir w
  = mkWorld
      (stdout w ++
       ["Scanning directory 1: " +:+ path_str dir1;
        "  Found "
          +:+ pretty (len (collect_images E (loop_start output_dir w) dir1))
          +:+ " images";
        "Scanning directory 2: " +:+ path_str dir2;
        "  Found "
          +:+ pretty (len (collect_images E (loop_start output_dir w) dir2))
          +:+ " images";
        nl +:+ "Found 0 matching image pairs";
        "No matching images found!"])%list
      (loop_start output_dir w).
Proof.
  intros Hempty. unfold compare_directories, loop_start in *.
  unfold print, with_files. cbn [files stdout]. rewrite Hempty.
  rewrite decide_True by done. rewrite size_empty, <- !app_assoc.
  reflexivity.
Qed.

(** The run when some prefix is common: the loop, then the report. *)
Lemma compare_directories_nonempty E dir1 dir2 output_dir w :
  let fs := loop_start output_dir w in
  let images1 := collect_images E fs dir1 in
  let images2 := collect_images E fs dir2 in
  let tr := trace E output_dir images1 images2 fs (matched images1 images2) in
  let t := mkTally (length (omap (saved_as true) tr.1)
                    + length (omap (saved_as false) tr.1))
                   (omap (saved_as true) tr.1)
                   (omap (saved_as false) tr.1) in
  common_prefixes images1 images2 <> ∅ ->
  files (compare_directories E dir1 dir2 output_dir w)
  = <[joinpath output_dir report_name :=
        Text (report dir1 dir2 (len (common_prefixes images1 images2)) t)]>
      tr.2.
Proof.
  intros fs images1 images2 tr t Hne. unfold compare_directories.
  unfold print at 1 2 3 4 5, with_files at 1. cbn [files stdout].
  fold (loop_start output_dir w). fold fs. fold images1 images2.
  rewrite decide_False by done.
  change (sorted (elements (common_prefixes images1 images2)))
    with (matched images1 images2).
  rewrite process_all_trace. unfold print, with_files. cbn [files stdout].
  fold tr. reflexivity.
Qed.




(** C7 (amended): the save step runs only after the composite image has
    been composed: a pair whose composition raises leaves the file system
    as it was; and when [save] writes no path but its own, the run ends with
    that pair's output path holding what it held at the start. *)
Theorem composition_failure_writes_nothing (E : env)
    (dir1 dir2 output_dir : Path) (w : World) :
  (forall images1 images2 st prefix img1_path img2_path e,
     images1 !! prefix = Some img1_path ->
     images2 !! prefix = Some img2_path ->
     create_difference_image E (files st.1) img1_path img2_path = Raise e ->
     files (process_pair E output_dir images1 images2 st prefix).1
     = files st.1) /\
  (save_writes_its_path E ->
   forall prefix e,
     (prefix, NotComposed e) ∈ loop_trace E dir1 dir2 output_dir w ->
     files (compare_directories E dir1 dir2 output_dir w)
       !! joinpath output_dir (diff_name prefix)
     = files w !! joinpath output_dir (diff_name prefix)).
Proof.
  split.
  - intros images1 images2 [w0 t0] prefix p1 p2 e H1 H2 Hc.
    unfold process_pair. rewrite H1, H2. cbn [files print fst] in *.
    by rewrite Hc.
  - intros Hsave prefix e Hin. unfold loop_trace in Hin.
    set (fs := loop_start output_dir w) in *.
    set (images1 := collect_images E fs dir1) in *.
    set (images2 := collect_images E fs dir2) in *.
    assert (common_prefixes images1 images2 <> ∅) as Hne.
    { intros Hempty. unfold matched, sorted in Hin. rewrite Hempty in Hin.
      rewrite elements_empty in Hin. by apply elem_of_nil in Hin. }
    rewrite (compare_directories_nonempty E dir1 dir2 output_dir w Hne).
    fold fs images1 images2.
    rewrite lookup_insert_ne
      by (intros H; symmetry in H; by apply diff_path_not_report in H).
    rewrite (trace_not_composed E output_dir images1 images2 fs
               (matched images1 images2) prefix e Hsave
               (matched_NoDup _ _) (matched_common _ _) Hin).
    apply mkdir_exist_ok_frame, joinpath_ne.
Qed.

Lemma write_png_its_path dirs : save_writes_its_path (sample_env dirs write_png).
Proof. intros img p fs q Hq. simpl. by rewrite lookup_insert_ne. Qed.

Lemma composition_failure_writes_nothing_witness :
  let E := sample_env dirs_a write_png in
  let w := mkWorld [] fs_broken in
  loop_trace E before after out w
    = [("a", NotComposed "cannot identify image file")] /\
  files (compare_directories E before after out w)
    !! joinpath out (diff_name "a") = None.
Proof.
  split; [vm_compute; reflexivity |].
  rewrite (proj2 (composition_failure_writes_nothing
                    (sample_env dirs_a write_png) before after out
                    (mkWorld [] fs_broken))
             (write_png_its_path dirs_a) "a" "cannot identify image file").
  - vm_compute. reflexivity.
  - vm_compute. left.
Defined.

(** C7 as stated fails: when the save step itself raises after it has
    opened the file, the pair has failed and a partial file is at its
    output path. *)
Lemma failed_save_leaves_file :
  let E := sample_env dirs_a write_partial in
  let w := mkWorld [] fs_second_run in
  let w' := compare_directories E before after out w in
  loop_trace E before after out w
    = [("a", NotSaved "No space left on device")] /\
  error_line "a" "No space left on device" ∈ stdout w' /\
  files w' !! joinpath out (diff_name "a") = Some (Garbage "").
Proof.
  split_and!; try (vm_compute; reflexivity).
  apply (bool_decide_unpack _). vm_compute. exact I.
Qed.



End DriverProps.

(** ** The difference panel and the composite *)

Module PanelProps.

(** The third panel, pixel by pixel: defined where both images are, the
    highlight colour where the mask is set and the gray value elsewhere. *)
Lemma pixel_at_result_array E img1 img2 y x :
  pixel_at (result_array E img1 img2) y x =
  p ← pixel_at (pixels img1) y x;
  q ← pixel_at (pixels img2) y x;
  Some (if exceeds (pixel_difference p q) then highlight else gray E p).
Proof.
  unfold result_array, overlay, pixel_at, mask_of, diff_mask, difference,
    grayscale.
  change (map (map exceeds)) with (fmap (M := list) (fmap (M := list) exceeds)).
  change (map (map (gray E)))
    with (fmap (M := list) (fmap (M := list) (gray E))).
  rewrite lookup_zip_with, !list_lookup_fmap, lookup_zip_with.
  destruct (pixels img1 !! y) as [r1|]; simpl; [|done].
  destruct (pixels img2 !! y) as [r2|]; simpl; [|by destruct (r1 !! x)].
  rewrite lookup_zip_with, !list_lookup_fmap, lookup_zip_with.
  destruct (r1 !! x) as [p|]; simpl; [|done].
  by destruct (r2 !! x) as [q|].
Qed.

(** X1: at a position both compared images have, the third panel shows the
    highlight colour when some channel differs by more than 10, and the gray
    value of the first image's pixel otherwise. *)
Theorem result_array_pixel (E : env) (img1 img2 : image) (y x : nat)
    (p q : pixel) :
  pixel_at (pixels img1) y x = Some p ->
  pixel_at (pixels img2) y x = Some q ->
  (differs p q ->
   pixel_at (result_array E img1 img2) y x = Some highlight) /\
  (~ differs p q ->
   pixel_at (result_array E img1 img2) y x
   = Some (luma E p, luma E p, luma E p)).
Proof.
  intros Hp Hq. rewrite pixel_at_result_array, Hp, Hq. simpl.
  destruct (exceeds (pixel_difference p q)) eqn:Hex.
  - split; [done |]. intros Hn. exfalso.
    by apply Hn, DifferencerProps.exceeds_differs.
  - split; [|done]. intros Hd%DifferencerProps.exceeds_differs. congruence.
Qed.

Lemma result_array_pixel_witness :
  pixel_at (result_array (sample_env dirs_a write_png) shot1 shot2) 0 1
    = Some highlight /\
  pixel_at (result_array (sample_env dirs_a write_png) shot1 shot2) 0 0
    = Some (100, 100, 100)%Z.
Proof.
  split.
  - apply (result_array_pixel (sample_env dirs_a write_png) shot1 shot2 0 1
             (50, 50, 50)%Z (50, 61, 50)%Z); [reflexivity | reflexivity |].
    simpl. lia.
  - apply (result_array_pixel (sample_env dirs_a write_png) shot1 shot2 0 0
             (100, 100, 100)%Z (110, 100, 100)%Z); [reflexivity | reflexivity |].
    simpl. lia.
Defined.

(** X2: the flag a call returns is true exactly when some pixel of the
    third panel has the highlight colour. *)
Theorem flag_iff_highlighted (E : env) (fs : FS) (img1_path img2_path : Path)
    (combined : image) (has_difference : bool) :
  create_difference_image E fs img1_path img2_path
    = Ok (combined, has_difference) ->
  exists img1 img2 img2',
    image_open E fs img1_path = Ok img1 /\
    image_open E fs img2_path = Ok img2 /\
    same_size E img1 img2 = Ok img2' /\
    (has_difference = true <->
     exists y x, pixel_at (result_array E img1 img2') y x = Some highlight).
Proof.
  intros (img1 & img2 & img2' & H1 & H2 & H3 & ->)
    %DifferencerProps.create_difference_image_inv.
  exists img1, img2, img2'. split_and!; try done.
  rewrite DifferencerProps.np_any_spec. split.
  - intros (y & x & Hm). exists y, x.
    rewrite DifferencerProps.mask_at_mask_of in Hm.
    rewrite pixel_at_result_array.
    destruct (pixel_at (pixels img1) y x) as [p|]; simpl in *; [|done].
    destruct (pixel_at (pixels img2') y x) as [q|]; simpl in *; [|done].
    injection Hm as ->. done.
  - intros (y & x & Hr). exists y, x.
    rewrite DifferencerProps.mask_at_mask_of.
    rewrite pixel_at_result_array in Hr.
    destruct (pixel_at (pixels img1) y x) as [p|]; simpl in *; [|done].
    destruct (pixel_at (pixels img2') y x) as [q|]; simpl in *; [|done].
    destruct (exceeds (pixel_difference p q)); [done |].
    exfalso. apply (DifferencerProps.gray_not_highlight E p). congruence.
Qed.

Lemma flag_iff_highlighted_witness :
  exists img1 img2 img2',
    read_png fs_a (joinpath before "a_20250101_000000.png") = Ok img1 /\
    read_png fs_a (joinpath after "a_20250101_000001.png") = Ok img2 /\
    same_size (sample_env dirs_a write_png) img1 img2 = Ok img2' /\
    (true = true <->
     exists y x,
       pixel_at (result_array (sample_env dirs_a write_png) img1 img2') y x
       = Some highlight).
Proof.
  eapply (flag_iff_highlighted (sample_env dirs_a write_png) fs_a
            (joinpath before "a_20250101_000000.png")
            (joinpath after "a_20250101_000001.png") _ true).
  vm_compute. reflexivity.
Defined.

Lemma pixel_at_paste base img x0 y0 y x :
  pixel_at (pixels (paste base img (x0, y0))) y x =
  (fun p =>
     if bool_decide (y0 ≤ y < y0 + snd (size img)
                     ∧ x0 ≤ x < x0 + fst (size img))
     then default p (pixel_at (pixels img) (y - y0) (x - x0))
     else p) <$> pixel_at (pixels base) y x.
Proof.
  unfold paste. destruct (size img) as [w h]. simpl. unfold pixel_at.
  rewrite list_lookup_imap.
  destruct (pixels base !! y) as [row|]; simpl; [|done].
  rewrite list_lookup_imap. by destruct (row !! x).
Qed.

Lemma size_paste base img xy : size (paste base img xy) = size base.
Proof. unfold paste. destruct xy. by destruct (size img). Qed.

Lemma pixel_at_Image_new w h c y x :
  pixel_at (pixels (Image_new (w, h) c)) y x
  = if bool_decide (y < h ∧ x < w) then Some c else None.
Proof.
  unfold Image_new, pixel_at. simpl. case_bool_decide as Hin.
  - destruct Hin as [Hy Hx]. rewrite lookup_replicate_2 by lia. simpl.
    by rewrite lookup_replicate_2 by lia.
  - destruct (decide (y < h)) as [Hy | Hy].
    + rewrite lookup_replicate_2 by lia. simpl.
      apply lookup_replicate_None. lia.
    + assert (replicate h (replicate w c) !! y = None) as ->; [|done].
      apply lookup_replicate_None. lia.
Qed.

Lemma well_formed_pixel_at img w h y x :
  well_formed img -> size img = (w, h) -> y < h -> x < w ->
  is_Some (pixel_at (pixels img) y x).
Proof.
  intros [Hlen Hrows] Hsize Hy Hx. rewrite Hsize in *. simpl in *.
  unfold pixel_at.
  destruct (lookup_lt_is_Some_2 (pixels img) y) as [row Hrow]; [lia |].
  rewrite Hrow. simpl. apply lookup_lt_is_Some_2.
  rewrite Forall_lookup in Hrows. rewrite (Hrows y row Hrow). done.
Qed.

Lemma fromarray_size E img1 img2 w h :
  well_formed img1 -> well_formed img2 ->
  size img1 = (w, h) -> size img2 = (w, h) -> 0 < h ->
  size (fromarray (result_array E img1 img2)) = (w, h).
Proof.
  intros [L1 F1] [L2 F2] S1 S2 Hh. rewrite S1 in *. rewrite S2 in *.
  simpl in *.
  unfold fromarray, result_array, overlay, mask_of, diff_mask, difference,
    grayscale.
  destruct (pixels img1) as [|r1 a]; simpl in L1; [lia |].
  destruct (pixels img2) as [|r2 b]; simpl in L2; [lia |].
  apply Forall_cons_1 in F1 as [F1 _]. apply Forall_cons_1 in F2 as [F2 _].
  simpl. f_equal.
  - rewrite length_zip_with, !length_map, length_zip_with. lia.
  - f_equal. rewrite length_zip_with, !length_map, length_zip_with. lia.
Qed.

(** The canvas with its three panels, for images of one size. *)
Lemma panels_layout E img1 img2 w h :
  well_formed img1 -> well_formed img2 ->
  size img1 = (w, h) -> size img2 = (w, h) ->
  size (panels E img1 img2) = (w * 3, h + 40) /\
  (forall y x, y < 40 -> x < w * 3 ->
     pixel_at (pixels (panels E img1 img2)) y x = Some white) /\
  (forall y x, y < h -> x < w ->
     pixel_at (pixels (panels E img1 img2)) (40 + y) x
       = pixel_at (pixels img1) y x /\
     pixel_at (pixels (panels E img1 img2)) (40 + y) (w + x)
       = pixel_at (pixels img2) y x /\
     pixel_at (pixels (panels E img1 img2)) (40 + y) (w * 2 + x)
       = pixel_at (result_array E img1 img2) y x) /\
  (forall y x : nat, (h + 40 <= y)%nat \/ (w * 3 <= x)%nat ->
     pixel_at (pixels (panels E img1 img2)) y x = None).
Proof.
  intros W1 W2 S1 S2. unfold panels. rewrite S1.
  split; [by rewrite !size_paste |].
  assert (forall y x : nat,
            pixel_at
              (pixels
                 (paste
                    (paste (paste (Image_new (w * 3, h + 40) white) img1 (0, 40))
                       img2 (w, 40))
                    (fromarray (result_array E img1 img2)) (w * 2, 40)))
              y x
            = (fun p =>
                 if bool_decide
                      ((40 ≤ y < 40 + snd (size (fromarray
                                                   (result_array E img1 img2)))
                        ∧ w * 2 ≤ x
                          < w * 2 + fst (size (fromarray
                                                 (result_array E img1 img2))))%nat)
                 then default p
                        (pixel_at (result_array E img1 img2) (y - 40)
                           (x - w * 2))
                 else p)
              <$> ((fun p =>
                      if bool_decide ((40 ≤ y < 40 + h ∧ w ≤ x < w + w)%nat)
                      then default p
                             (pixel_at (pixels img2) (y - 40) (x - w))
                      else p)
                   <$> ((fun p =>
                           if bool_decide ((40 ≤ y < 40 + h ∧ 0 ≤ x < 0 + w)%nat)
                           then default p
                                  (pixel_at (pixels img1) (y - 40) (x - 0))
                           else p)
                        <$> (if bool_decide (y < h + 40 ∧ x < w * 3)
                             then Some white else None)))) as Hpx.
  { intros y x. rewrite !pixel_at_paste, pixel_at_Image_new.
    rewrite S1, S2. reflexivity. }
  split_and!.
  - intros y x Hy Hx. rewrite Hpx.
    rewrite (bool_decide_true (y < h + 40 ∧ x < w * 3)) by lia.
    cbn [fmap option_fmap option_map].
    by rewrite !bool_decide_false by lia.
  - intros y x Hy Hx.
    pose proof (fromarray_size E img1 img2 w h W1 W2 S1 S2) as Hra.
    rewrite Hra in Hpx by lia. cbn [fst snd] in Hpx.
    destruct (well_formed_pixel_at img1 w h y x W1 S1 Hy Hx) as [p Hp].
    destruct (well_formed_pixel_at img2 w h y x W2 S2 Hy Hx) as [q Hq].
    split_and!; rewrite Hpx.
    + rewrite (bool_decide_true (_ ∧ x < w * 3)) by lia.
      cbn [fmap option_fmap option_map].
      rewrite (bool_decide_true (_ ∧ 0 <= x < 0 + w)) by lia.
      rewrite !bool_decide_false by lia.
      replace (40 + y - 40) with y by lia. replace (x - 0) with x by lia.
      by rewrite Hp.
    + rewrite (bool_decide_true (_ ∧ w + x < w * 3)) by lia.
      cbn [fmap option_fmap option_map].
      rewrite (bool_decide_false (_ ∧ 0 <= w + x < 0 + w)) by lia.
      rewrite (bool_decide_true (_ ∧ w <= w + x < w + w)) by lia.
      rewrite bool_decide_false by lia.
      replace (40 + y - 40) with y by lia. replace (w + x - w) with x by lia.
      by rewrite Hq.
    + rewrite (bool_decide_true (_ ∧ w * 2 + x < w * 3)) by lia.
      cbn [fmap option_fmap option_map].
      rewrite (bool_decide_false (_ ∧ 0 <= w * 2 + x < 0 + w)) by lia.
      rewrite (bool_decide_false (_ ∧ w <= w * 2 + x < w + w)) by lia.
      rewrite bool_decide_true by lia.
      replace (40 + y - 40) with y by lia.
      replace (w * 2 + x - w * 2) with x by lia.
      rewrite pixel_at_result_array, Hp, Hq. done.
  - intros y x Hout. rewrite Hpx.
    by rewrite (bool_decide_false (y < h + 40 ∧ x < w * 3)) by lia.
Qed.

Lemma create_difference_image_panels E fs p1 p2 combined flag :
  create_difference_image E fs p1 p2 = Ok (combined, flag) ->
  exists img1 img2 img2' c1 c2,
    image_open E fs p1 = Ok img1 /\ image_open E fs p2 = Ok img2 /\
    same_size E img1 img2 = Ok img2' /\
    let wz := Z.of_nat (fst (size img1)) in
    draw_text E (panels E img1 img2') (wz / 2 - 50, 10)%Z "Image 1"
      (label_font E) = Ok c1 /\
    draw_text E c1 (wz + wz / 2 - 50, 10)%Z "Image 2" (label_font E) = Ok c2 /\
    draw_text E c2 (wz * 2 + wz / 2 - 70, 10)%Z "Difference" (label_font E)
      = Ok combined.
Proof.
  unfold create_difference_image, panels, label_font. intros H.
  destruct (image_open E fs p1) as [img1|] eqn:H1; [|done].
  destruct (image_open E fs p2) as [img2|] eqn:H2; [|done].
  cbn [mbind result_bind] in H.
  destruct (same_size E img1 img2) as [img2'|] eqn:H3; [|done].
  cbn [mbind result_bind] in H. exists img1, img2, img2'.
  destruct (size img1) as [width height].
  cbv beta iota zeta in H |- *. cbn [fst].
  match type of H with
  | (?d ≫= _) = _ => destruct d as [c1|] eqn:D1; [|done]
  end.
  cbn [mbind result_bind] in H.
  match type of H with
  | (?d ≫= _) = _ => destruct d as [c2|] eqn:D2; [|done]
  end.
  cbn [mbind result_bind] in H.
  match type of H with
  | (?d ≫= _) = _ => destruct d as [c3|] eqn:D3; [|done]
  end.
  cbn [mbind result_bind] in H. injection H as <- _. by exists c1, c2.
Qed.

(** X3: the composite of a returning call is the canvas of three panels
    with the three labels drawn onto it, at a third of the way minus 50 (70
    for the last) and 10 pixels down.  For well-formed images of one size,
    the canvas is three widths wide and 40 pixels higher than the first
    image, white in its top 40 rows, and below them it shows the first
    image, the second image as compared and the difference panel side by
    side. *)
Theorem composite_layout (E : env) (fs : FS) (img1_path img2_path : Path)
    (img1 img2 img2' combined : image) (has_difference : bool) :
  image_open E fs img1_path = Ok img1 ->
  image_open E fs img2_path = Ok img2 ->
  same_size E img1 img2 = Ok img2' ->
  well_formed img1 -> well_formed img2' -> size img2' = size img1 ->
  create_difference_image E fs img1_path img2_path
    = Ok (combined, has_difference) ->
  let w := fst (size img1) in
  let h := snd (size img1) in
  let wz := Z.of_nat w in
  let canvas := panels E img1 img2' in
  (exists c1 c2,
     draw_text E canvas (wz / 2 - 50, 10)%Z "Image 1" (label_font E) = Ok c1 /\
     draw_text E c1 (wz + wz / 2 - 50, 10)%Z "Image 2" (label_font E)
       = Ok c2 /\
     draw_text E c2 (wz * 2 + wz / 2 - 70, 10)%Z "Difference" (label_font E)
       = Ok combined) /\
  size canvas = (w * 3, h + 40) /\
  (forall y x, y < 40 -> x < w * 3 ->
     pixel_at (pixels canvas) y x = Some white) /\
  (forall y x, y < h -> x < w ->
     pixel_at (pixels canvas) (40 + y) x = pixel_at (pixels img1) y x /\
     pixel_at (pixels canvas) (40 + y) (w + x) = pixel_at (pixels img2') y x /\
     pixel_at (pixels canvas) (40 + y) (w * 2 + x)
       = pixel_at (result_array E img1 img2') y x) /\
  (forall y x : nat, (h + 40 <= y)%nat \/ (w * 3 <= x)%nat ->
     pixel_at (pixels canvas) y x = None).
Proof.
  intros H1 H2 H3 W1 W2 Hsize Hc w h wz canvas.
  apply create_difference_image_panels in Hc
    as (a & b & b' & c1 & c2 & Ha & Hb & Hs & D1 & D2 & D3).
  rewrite H1 in Ha. injection Ha as <-.
  rewrite H2 in Hb. injection Hb as <-.
  rewrite H3 in Hs. injection Hs as <-.
  split; [by exists c1, c2 |].
  apply (panels_layout E img1 img2' w h W1 W2).
  - subst w h. by destruct (size img1).
  - rewrite Hsize. subst w h. by destruct (size img1).
Qed.

Lemma shot_well_formed : well_formed shot1 /\ well_formed shot2.
Proof. split; (split; [reflexivity | by repeat constructor]). Qed.

Lemma composite_layout_witness :
  let E := sample_env dirs_a write_png in
  let canvas := panels E shot1 shot2 in
  (exists c1 c2,
     draw_text E canvas (2 / 2 - 50, 10)%Z "Image 1" (label_font E) = Ok c1 /\
     draw_text E c1 (2 + 2 / 2 - 50, 10)%Z "Image 2" (label_font E) = Ok c2 /\
     draw_text E c2 (2 * 2 + 2 / 2 - 70, 10)%Z "Difference" (label_font E)
       = Ok canvas) /\
  size canvas = (2 * 3, 1 + 40) /\
  (forall y x, y < 40 -> x < 2 * 3 ->
     pixel_at (pixels canvas) y x = Some white) /\
  (forall y x, y < 1 -> x < 2 ->
     pixel_at (pixels canvas) (40 + y) x = pixel_at (pixels shot1) y x /\
     pixel_at (pixels canvas) (40 + y) (2 + x) = pixel_at (pixels shot2) y x /\
     pixel_at (pixels canvas) (40 + y) (2 * 2 + x)
       = pixel_at (result_array E shot1 shot2) y x) /\
  (forall y x : nat, (1 + 40 <= y)%nat \/ (2 * 3 <= x)%nat ->
     pixel_at (pixels canvas) y x = None).
Proof.
  apply (composite_layout (sample_env dirs_a write_png) fs_a
           (joinpath before "a_20250101_000000.png")
           (joinpath after "a_20250101_000001.png")
           shot1 shot2 shot2 (panels (sample_env dirs_a write_png) shot1 shot2)
           true);
    try apply shot_well_formed; vm_compute; reflexivity.
Defined.

End PanelProps.

(** ** More on prefix extraction and the collector *)

Module IndexProps.

#[local] Arguments String.append !s1 s2 : simpl nomatch.

(** The scan either copies the whole string or meets a timestamp suffix at
    its end, possibly before one last newline. *)
Lemma sub_scan_cases s :
  sub_scan pattern "" 0 s = s \/
  exists base t,
    timestamp_suffix t /\ (s = base +:+ t \/ s = base +:+ t +:+ nl).
Proof.
  induction s as [|c s IH]; [by left |].
  destruct (matches_here pattern (String c s)) eqn:Hm.
  - right. apply PrefixProps.matches_here_iff in Hm as [Ht | (t & Ht & ->)].
    + exists "", (String c s). split; [done | by left].
    + exists "", t. split; [done | by right].
  - destruct IH as [IH | (base & t & Ht & Hs)].
    + left. cbn [sub_scan]. by rewrite Hm, IH.
    + right. exists (String c base), t. split; [done |].
      destruct Hs as [-> | ->]; [by left | by right].
Qed.

(** X4: whatever the name, [extract_prefix] returns it unchanged or removes
    exactly one timestamp suffix of 20 characters from its end (keeping a
    final newline): the result is never longer than the name, and a second
    timestamp in front of the removed one stays. *)
Theorem extract_prefix_cases (filename : string) :
  (extract_prefix filename = filename \/
   exists base t,
     timestamp_suffix t /\
     ((filename = base +:+ t /\ extract_prefix filename = base) \/
      (filename = base +:+ t +:+ nl /\
       extract_prefix filename = base +:+ nl))) /\
  String.length (extract_prefix filename) <= String.length filename /\
  (extract_prefix filename <> filename ->
   String.length (extract_prefix filename) + 20 = String.length filename).
Proof.
  assert (extract_prefix filename = filename \/
          exists base t,
            timestamp_suffix t /\
            ((filename = base +:+ t /\ extract_prefix filename = base) \/
             (filename = base +:+ t +:+ nl /\
              extract_prefix filename = base +:+ nl))) as Hcases.
  { destruct (sub_scan_cases filename) as [H | (base & t & Ht & [-> | ->])].
    - by left.
    - right. exists base, t. split; [done |]. left.
      split; [done | by apply PrefixProps.extract_prefix_suffix].
    - right. exists base, t. split; [done |]. right.
      split; [done | by apply PrefixProps.extract_prefix_suffix_nl]. }
  split; [exact Hcases |].
  destruct Hcases as [-> | (base & t & Ht & [[-> ->] | [-> ->]])].
  - split; [done | by intros []].
  - pose proof (PrefixProps.timestamp_suffix_length t Ht) as Hlen.
    rewrite PrefixProps.app_length_s, Hlen. split; [lia | done].
  - pose proof (PrefixProps.timestamp_suffix_length t Ht) as Hlen.
    rewrite !PrefixProps.app_length_s, Hlen. simpl. split; [lia | intros _; lia].
Qed.

Lemma extract_prefix_cases_witness :
  String.length (extract_prefix "a_20260116_021751.png_20260116_021751.png")
    + 20
  = String.length "a_20260116_021751.png_20260116_021751.png".
Proof.
  apply (extract_prefix_cases "a_20260116_021751.png_20260116_021751.png").
  vm_compute. discriminate.
Defined.

(** One call removes one suffix: a name with two loses the second only. *)
Example extract_prefix_twice :
  extract_prefix "a_20260116_021751.png_20260116_021751.png"
    = "a_20260116_021751.png" /\
  extract_prefix "a_20260116_021751.png" = "a".
Proof. split; reflexivity. Qed.

(** The keys of an index under construction. *)
Lemma dom_foldl_index (l : list Path) (m : gmap string Path) k :
  k ∈ dom (foldl index_file m l) <->
  k ∈ dom m \/ exists f, f ∈ l /\ extract_prefix (name f) = k.
Proof.
  revert m. induction l as [|f l IH]; intros m; simpl.
  - split; [by left |]. intros [H | (f & Hf & _)]; [done |].
    by apply elem_of_nil in Hf.
  - rewrite IH. unfold index_file. rewrite dom_insert_L.
    rewrite elem_of_union, elem_of_singleton. split.
    + intros [[-> | H] | (f' & Hf' & Hk)].
      * right. exists f. split; [by left | done].
      * by left.
      * right. exists f'. split; [by right | done].
    + intros [H | (f' & [-> | Hf']%elem_of_cons & Hk)].
      * left. by right.
      * left. by left.
      * right. by exists f'.
Qed.

Lemma size_foldl_index (l : list Path) (m : gmap string Path) :
  base.size (foldl index_file m l) <= base.size m + length l.
Proof.
  revert m. induction l as [|f l IH]; intros m; simpl; [lia |].
  etrans; [apply IH |]. unfold index_file. cbv zeta.
  pose proof (map_size_insert (extract_prefix (name f)) f m) as Hsz.
  destruct (m !! extract_prefix (name f)); unfold id in Hsz; lia.
Qed.

(** X5: the keys of the index are exactly the prefixes of the entries of
    the directory whose name ends in [.png]; the index has at most as many
    keys as there are such entries, and none when there is no such entry. *)
Theorem collect_images_keys (E : env) (fs : FS) (directory : Path) :
  (forall prefix,
     prefix ∈ dom (collect_images E fs directory) <->
     exists entry stem,
       entry ∈ scandir E fs directory /\ entry = stem +:+ ".png" /\
       extract_prefix entry = prefix) /\
  base.size (collect_images E fs directory)
    <= length (List.filter (fnmatch_star ".png") (scandir E fs directory)) /\
  ((forall entry stem,
      entry ∈ scandir E fs directory -> entry <> stem +:+ ".png") ->
   collect_images E fs directory = ∅).
Proof.
  assert (forall prefix,
            prefix ∈ dom (collect_images E fs directory) <->
            exists entry stem,
              entry ∈ scandir E fs directory /\ entry = stem +:+ ".png" /\
              extract_prefix entry = prefix) as Hkeys.
  { intros prefix. unfold collect_images, glob_png.
    rewrite dom_foldl_index, dom_empty_L. split.
    - intros [H | (f & Hf & Hk)]; [by apply not_elem_of_empty in H |].
      apply list_elem_of_fmap in Hf as (entry & -> & Hin).
      apply list_elem_of_In, List.filter_In in Hin as [Hin Hpng].
      apply CollectorProps.fnmatch_star_spec in Hpng as [stem Hstem].
      exists entry, stem. rewrite CollectorProps.name_joinpath in Hk.
      split_and!; [by apply list_elem_of_In | done | done].
    - intros (entry & stem & Hin & Hstem & Hk). right.
      exists (joinpath directory entry). split.
      + apply list_elem_of_fmap. exists entry. split; [done |].
        apply list_elem_of_In, List.filter_In. split.
        * by apply list_elem_of_In.
        * apply CollectorProps.fnmatch_star_spec. by exists stem.
      + by rewrite CollectorProps.name_joinpath. }
  split_and!; [exact Hkeys | |].
  - unfold collect_images, glob_png.
    etrans; [apply size_foldl_index |].
    rewrite map_size_empty, length_fmap. lia.
  - intros Hnone. apply dom_empty_iff_L. apply set_eq. intros prefix.
    rewrite Hkeys. split.
    + intros (entry & stem & Hin & Hstem & _). by destruct (Hnone entry stem).
    + intros H. by apply not_elem_of_empty in H.
Qed.

Lemma collect_images_keys_witness :
  collect_images (sample_env dirs_disjoint write_png) fs_a out = ∅.
Proof.
  apply (collect_images_keys (sample_env dirs_disjoint write_png) fs_a out).
  intros entry stem Hin. vm_compute in Hin. by apply elem_of_nil in Hin.
Defined.

End IndexProps.

(** ** More on the run *)

Module RunProps.

#[local] Arguments String.append !s1 s2 : simpl nomatch.

Lemma saved_as_sublist b (os : list (string * outcome)) :
  omap (saved_as b) os `sublist_of` os.*1.
Proof.
  induction os as [|[k o] os IH]; [constructor |].
  destruct o as [b'| |]; cbn.
  - unfold saved_as. cbn. destruct (Bool.eqb b b').
    + by apply sublist_skip.
    + by apply sublist_cons.
  - by apply sublist_cons.
  - by apply sublist_cons.
Qed.

Lemma StronglySorted_sublist {A} (R : relation A) (l k : list A) :
  l `sublist_of` k -> StronglySorted R k -> StronglySorted R l.
Proof.
  induction 1 as [|x l k Hsub IH|x l k Hsub IH]; intros Hk.
  - constructor.
  - apply StronglySorted_inv in Hk as [Hk Hx]. constructor; [by apply IH |].
    rewrite Forall_forall in Hx |- *. intros y Hy. apply Hx.
    by apply (elem_of_sublist l k).
  - apply StronglySorted_inv in Hk as [Hk _]. by apply IH.
Qed.

(** X6: the two buckets the report lists are taken from the sorted list of
    matched prefixes in its order: each is sorted and free of repetitions,
    and no prefix is in both. *)
Theorem buckets_sorted (E : env) (output_dir : Path)
    (images1 images2 : gmap string Path) (w : World) :
  let t :=
    (process_all E output_dir images1 images2 w (matched images1 images2)).2 in
  files_with_diff t `sublist_of` matched images1 images2 /\
  files_without_diff t `sublist_of` matched images1 images2 /\
  StronglySorted String.le (files_with_diff t) /\
  StronglySorted String.le (files_without_diff t) /\
  NoDup (files_with_diff t) /\ NoDup (files_without_diff t) /\
  (forall prefix,
     prefix ∈ files_with_diff t -> prefix ∈ files_without_diff t -> False).
Proof.
  intros t. subst t. rewrite DriverProps.process_all_trace. cbn [snd].
  cbn [files_with_diff files_without_diff].
  set (os := (trace E output_dir images1 images2 (files w)
                (matched images1 images2)).1).
  assert (os.*1 = matched images1 images2) as Hfst.
  { apply DriverProps.trace_fst, DriverProps.matched_common. }
  assert (StronglySorted String.le (matched images1 images2)) as Hsorted.
  { apply StronglySorted_merge_sort; apply _. }
  pose proof (saved_as_sublist true os) as Ht.
  pose proof (saved_as_sublist false os) as Hf.
  rewrite Hfst in Ht, Hf.
  split_and!; try done.
  - by apply (StronglySorted_sublist _ _ _ Ht).
  - by apply (StronglySorted_sublist _ _ _ Hf).
  - by eapply sublist_NoDup; eauto using DriverProps.matched_NoDup.
  - by eapply sublist_NoDup; eauto using DriverProps.matched_NoDup.
  - intros prefix H1%DriverProps.elem_of_saved_as
      H2%DriverProps.elem_of_saved_as.
    assert (NoDup os.*1) as Hnd.
    { rewrite Hfst. apply DriverProps.matched_NoDup. }
    by pose proof (DriverProps.outcome_unique _ _ _ _ Hnd H1 H2).
Qed.


(** Paths that are no output path of a visited prefix survive the loop. *)
Lemma trace_frame_path E output_dir images1 images2 fs prefixes q :
  save_writes_its_path E ->
  (forall k, k ∈ prefixes -> q <> joinpath output_dir (diff_name k)) ->
  (trace E output_dir images1 images2 fs prefixes).2 !! q = fs !! q.
Proof.
  intros Hsave. revert fs.
  induction prefixes as [|prefix rest IH]; intros fs Hq; [done |].
  assert (forall k, k ∈ rest -> q <> joinpath output_dir (diff_name k))
    as Hq' by (intros k ?; apply Hq; by right).
  assert (q <> joinpath output_dir (diff_name prefix)) as Hne
    by (apply Hq; by left).
  cbn [trace].
  destruct (images1 !! prefix) as [p1|]; [|by apply IH].
  destruct (images2 !! prefix) as [p2|]; [|by apply IH].
  destruct (create_difference_image E fs p1 p2) as [[img flag]|e].
  - pose proof (Hsave img (joinpath output_dir (diff_name prefix)) fs q Hne)
      as Hfr.
    destruct (save E img (joinpath output_dir (diff_name prefix)) fs)
      as [fs1 [e|]]; specialize (IH fs1 Hq');
      destruct (trace E output_dir images1 images2 fs1 rest) as [os fs'];
      simpl in *; by rewrite IH.
  - specialize (IH fs Hq').
    by destruct (trace E output_dir images1 images2 fs rest) as [os fs'].
Qed.

(** X7: a run changes nothing but its outputs: when [save] writes no path
    but its own, every path other than the output directory, the report and
    the composites of the matched prefixes holds after the run what it held
    before. *)
Theorem run_touches_only_outputs (E : env) (dir1 dir2 output_dir : Path)
    (w : World) (q : Path) :
  save_writes_its_path E ->
  q <> output_dir ->
  q <> joinpath output_dir report_name ->
  (forall prefix,
     prefix ∈ common_prefixes
                (collect_images E (loop_start output_dir w) dir1)
                (collect_images E (loop_start output_dir w) dir2) ->
     q <> joinpath output_dir (diff_name prefix)) ->
  files (compare_directories E dir1 dir2 output_dir w) !! q = files w !! q.
Proof.
  intros Hsave Hdir Hreport Hdiff.
  set (fs := loop_start output_dir w) in *.
  set (images1 := collect_images E fs dir1) in *.
  set (images2 := collect_images E fs dir2) in *.
  destruct (decide (common_prefixes images1 images2 = ∅)) as [Hempty | Hne].
  - rewrite DriverProps.compare_directories_empty by exact Hempty.
    cbn [files]. by apply DriverProps.mkdir_exist_ok_frame.
  - rewrite (DriverProps.compare_directories_nonempty E dir1 dir2 output_dir
               w Hne).
    fold fs images1 images2. rewrite lookup_insert_ne by done.
    rewrite trace_frame_path; [by apply DriverProps.mkdir_exist_ok_frame
                              | done |].
    intros k Hk. by apply Hdiff, DriverProps.matched_common.
Qed.

Lemma run_touches_only_outputs_witness :
  files (compare_directories (sample_env dirs_a write_png) before after out
           (mkWorld [] fs_a))
    !! joinpath before "a_20250101_000000.png"
  = Some (Png shot1).
Proof.
  rewrite (run_touches_only_outputs (sample_env dirs_a write_png) before after
             out (mkWorld [] fs_a) (joinpath before "a_20250101_000000.png")).
  - reflexivity.
  - apply DriverProps.write_png_its_path.
  - vm_compute. discriminate.
  - vm_compute. discriminate.
  - intros prefix _. vm_compute. discriminate.
Defined.




End RunProps.
